(** * DEM preparation of the Sentinel-1 RTC notebook

    A shallow embedding of the DEM cells of [sentinel_1_isce3_rtc.ipynb]:
    the bounds adjustment at high latitudes, the enumeration of the
    Copernicus tiles, the download loop, the merge, the expansion of the
    merged DEM to the scene bounds.

    A Python float is a rational number ([Q]); [int], [abs], [np.floor],
    [np.ceil] and the comparisons are exact on floats and are their exact
    counterparts here.  Where the result of a sum, a difference or a
    product decides what the code does (the stop of the band ranges, the
    samples of [np.arange]), it is rounded to the nearest double by [fl].
    The padding arithmetic of [expand_raster_with_bounds] is over exact
    rationals: the inputs of its worked examples are dyadic rationals of
    small magnitude, on which the double-precision operations of the
    notebook are exact as well. *)

From Stdlib Require Import ZArith NArith QArith Qround Qabs Qminmax Lqa Lia.
From Stdlib Require Import Ascii DecimalString DecimalN.
From stdpp Require Import gmap strings list.

Local Open Scope Z_scope.

(** ** Python numerics over the rationals *)

Module PyNum.

(** [int(x)] on a float: truncation toward zero. *)
Definition py_int (x : Q) : Z := Z.quot (Qnum x) (Zpos (Qden x)).

(** [round(x)] on a float: round half to even. *)
Definition py_round (x : Q) : Z :=
  let f := Qfloor x in
  match Qcompare (x - inject_Z f) (1 # 2) with
  | Lt => f
  | Gt => f + 1
  | Eq => if Z.even f then f else f + 1
  end.

Definition Qltb (x y : Q) : bool :=
  match Qcompare x y with Lt => true | _ => false end.

Definition Qgtb (x y : Q) : bool := Qltb y x.

(** [range(a, b)]: the integers [a], ..., [b - 1]. *)
Definition py_range (a b : Z) : list Z :=
  List.map (fun i => a + Z.of_nat i) (seq 0 (Z.to_nat (b - a))).

End PyNum.

Export PyNum.

(** ** Double precision

    A finite double is a rational [m * 2 ^ e] with [|m| < 2 ^ 53] and
    [e >= -1074].  Results beyond the largest finite double are not
    modelled. *)

Module Float64.

(** [2 ^ z] for an integer exponent. *)
Definition pow2 (z : Z) : Q :=
  if 0 <=? z then inject_Z (2 ^ z) else 1 # Z.to_pos (2 ^ (- z)).

(** The binade of [x]: [floor (log2 |x|)], and -1022 for the subnormal
    numbers and zero. *)
Definition binade (x : Q) : Z :=
  let a := Qabs x in
  Z.max (-1022)
    (if Qle_bool 1 a then Z.log2 (Qfloor a)
     else - Z.log2_up (Qceiling (/ a))).

(** The spacing of the doubles around [x]. *)
Definition ulp (x : Q) : Q := pow2 (binade x - 52).

(** The double nearest to [x], ties to even: what an arithmetic operation
    with the exact result [x] returns. *)
Definition fl (x : Q) : Q := (inject_Z (py_round (x / ulp x)) * ulp x)%Q.

End Float64.

Export Float64.

(** ** Bounding boxes and polygons (shapely)

    A bounds tuple is [(x_min, y_min, x_max, y_max)]; for rasterio it reads
    [(left, bottom, right, top)]. *)

Module Geometry.

Record Bounds : Type := mkBounds {
  x_min : Q;
  y_min : Q;
  x_max : Q;
  y_max : Q
}.

Definition Point : Type := (Q * Q)%type.

Definition Qminimum (x : Q) (l : list Q) : Q := fold_left Qmin l x.
Definition Qmaximum (x : Q) (l : list Q) : Q := fold_left Qmax l x.

(** [Polygon(coords).bounds]: the extremes of the vertex coordinates.  Every
    polygon built in the notebook has at least four vertices. *)
Definition polygon_bounds (coords : list Point) : Bounds :=
  match coords with
  | [] => mkBounds 0 0 0 0
  | (x, y) :: rest =>
      mkBounds (Qminimum x (List.map fst rest)) (Qminimum y (List.map snd rest))
               (Qmaximum x (List.map fst rest)) (Qmaximum y (List.map snd rest))
  end.

(** [Polygon(coords).exterior.coords]: the ring, closed by repeating its
    first vertex when the given sequence is not closed already. *)
Definition exterior_coords (coords : list Point) : list Point :=
  match coords with
  | [] => []
  | p :: _ =>
      match last coords with
      | Some q =>
          if Qeq_bool (fst p) (fst q) && Qeq_bool (snd p) (snd q)
          then coords else coords ++ [p]
      | None => coords
      end
  end.

(** [box(a).contains_properly(box(b))] on two axis-aligned boxes: [b]
    lies in the interior of [a], no point of [b] on the boundary of [a]. *)
Definition contains_properly (a b : Bounds) : bool :=
  Qltb (x_min a) (x_min b) && Qltb (x_max b) (x_max a) &&
  Qltb (y_min a) (y_min b) && Qltb (y_max b) (y_max a).

(** Containment with shared boundary allowed: [b] lies within [a]. *)
Definition covers (a b : Bounds) : Prop :=
  (x_min a <= x_min b)%Q /\ (y_min a <= y_min b)%Q /\
  (x_max b <= x_max a)%Q /\ (y_max b <= y_max a)%Q.

Definition bounds_eq (a b : Bounds) : Prop :=
  (x_min a == x_min b)%Q /\ (y_min a == y_min b)%Q /\
  (x_max a == x_max b)%Q /\ (y_max a == y_max b)%Q.

End Geometry.

Export Geometry.

(** ** Adjustment of the scene bounds at extreme latitudes *)

Module PolarBounds.

(** [np.arange(start, stop, step)] on doubles: the length is the ceiling
    of the double [(stop - start) / step]; the first two values are
    [start] and [start + step], and value [i] is [start + i * delta] for
    the difference [delta] of the first two, each operation rounded. *)
Definition np_arange (start stop step : Q) : list Q :=
  let length := Qceiling (fl (fl (stop - start) / step)) in
  let next := fl (start + step) in
  let delta := fl (next - start) in
  List.map (fun i => match i with
                     | O => start
                     | S O => next
                     | _ => fl (start + fl (inject_Z (Z.of_nat i) * delta))
                     end)
           (seq 0 (Z.to_nat length)).

Section WithTransformer.

(** [pyproj.Transformer.from_crs(src, dst, always_xy=True).transform],
    indexed by the two EPSG codes.  PROJ is an external library. *)
Variable transform : Z -> Z -> Point -> Point.

Definition transform_polygon (src_crs dst_crs : Z) (geometry : list Point)
  : list Point :=
  List.map (transform src_crs dst_crs) (exterior_coords geometry).

Definition adjust_scene_poly_at_extreme_lat
    (bbox : Bounds) (src_crs ref_crs : Z) (delta : Q) : list Point :=
  let '(mkBounds x_min y_min x_max y_max) := bbox in
  let top_side :=
    List.map (fun x => (x, y_max)) (np_arange x_min x_max delta ++ [x_max]) in
  let right_side :=
    List.map (fun y => (x_max, y))
      (np_arange (fl (y_max - delta)) (fl (y_min - delta)) (- delta)
         ++ [y_min]) in
  let bottom_side :=
    List.map (fun x => (x, y_min))
      (np_arange (fl (x_max - delta)) (fl (x_min - delta)) (- delta)
         ++ [x_min]) in
  let left_side :=
    List.map (fun y => (x_min, y))
      (np_arange (fl (y_min + delta)) y_max delta ++ [y_max]) in
  let all_points := top_side ++ right_side ++ bottom_side ++ left_side in
  let trans_bounds :=
    polygon_bounds (transform_polygon src_crs ref_crs all_points) in
  let trans_poly :=
    [ (Geometry.x_min trans_bounds, Geometry.y_min trans_bounds);
      (Geometry.x_max trans_bounds, Geometry.y_min trans_bounds);
      (Geometry.x_max trans_bounds, Geometry.y_max trans_bounds);
      (Geometry.x_min trans_bounds, Geometry.y_max trans_bounds) ] in
  transform_polygon ref_crs src_crs trans_poly.

(** The default [delta=0.1] of [adjust_scene_poly_at_extreme_lat]: the
    double nearest to one tenth. *)
Definition default_delta : Q := fl (1 # 10).

(** The cell "Adjust DEM bounds at extreme latitudes": the southern test,
    then the northern test on the possibly adjusted bounds. *)
Definition adjust_scene_bounds (scene_bounds : Bounds) : Bounds :=
  let scene_bounds :=
    if Qltb (y_min scene_bounds) (-50) || Qltb (y_max scene_bounds) (-50)
    then polygon_bounds
           (adjust_scene_poly_at_extreme_lat scene_bounds 4326 3031
              default_delta)
    else scene_bounds in
  let scene_bounds :=
    if Qgtb (y_min scene_bounds) 50 || Qgtb (y_max scene_bounds) 50
    then polygon_bounds
           (adjust_scene_poly_at_extreme_lat scene_bounds 4326 3995
              default_delta)
    else scene_bounds in
  scene_bounds.

End WithTransformer.

(** The ring [geom] the cell builds from the final bounds. *)
Definition scene_geom (scene_bounds : Bounds) : list Point :=
  exterior_coords
    [ (x_min scene_bounds, y_min scene_bounds);
      (x_max scene_bounds, y_min scene_bounds);
      (x_max scene_bounds, y_max scene_bounds);
      (x_min scene_bounds, y_max scene_bounds) ].

End PolarBounds.

Export PolarBounds.

(** ** The polar stereographic projections of PROJ

    [pyproj] hands the coordinates to PROJ, an external library.  Its
    [stere] projection on the WGS 84 ellipsoid is transcribed here from
    PROJ's formulas, for the two polar reference systems of the notebook.
    The elementary functions are evaluated by their series on fixed-point
    numbers with 100 fractional bits, far below the spacing of the
    doubles, and each coordinate returned is rounded to a double. *)

Module Proj.

(** Fixed-point numbers: the integer [x] stands for [x / 2 ^ 100]. *)
Definition one : Z := 2 ^ 100.
Definition mul (x y : Z) : Z := x * y / one.
Definition div (x y : Z) : Z := x * one / y.
Definition of_Q (q : Q) : Z := Qnum q * one / Zpos (Qden q).
Definition to_Q (x : Z) : Q := x # Z.to_pos one.
Definition sqrt (x : Z) : Z := Z.sqrt (x * one).

Definition pi : Z :=
  of_Q (31415926535897932384626433832795028841971
        # 10000000000000000000000000000000000000000).
Definition half_pi : Z := pi / 2.

(** Sum of a power series whose term [i + 1] is term [i] times [- x2]
    over [(n + 1) * (n + 2)]: sine from [n = 1], cosine from [n = 0]. *)
Fixpoint trig_series (fuel : nat) (term x2 n acc : Z) : Z :=
  match fuel with
  | O => acc
  | S fuel' =>
      let term' := - mul term x2 / ((n + 1) * (n + 2)) in
      trig_series fuel' term' x2 (n + 2) (acc + term')
  end.

(** The angle brought into [-pi, pi). *)
Definition reduce (x : Z) : Z := x - (x + pi) / (2 * pi) * (2 * pi).

Definition sin (x : Z) : Z :=
  let x := reduce x in trig_series 40 x (mul x x) 1 x.
Definition cos (x : Z) : Z :=
  let x := reduce x in trig_series 40 one (mul x x) 0 one.
Definition tan (x : Z) : Z := div (sin x) (cos x).

(** Sum of [x ^ (2 k + 1) / (2 k + 1)], with the signs [sign ^ k]:
    arc tangent for [sign = -1], hyperbolic arc tangent for [sign = 1]. *)
Fixpoint odd_series (fuel : nat) (sign power x2 n acc : Z) : Z :=
  match fuel with
  | O => acc
  | S fuel' =>
      let power' := sign * mul power x2 in
      odd_series fuel' sign power' x2 (n + 2) (acc + power' / (n + 2))
  end.

(** [atan(x) = 2 atan(x / (1 + sqrt(1 + x^2)))] *)
Definition halve (x : Z) : Z := div x (one + sqrt (one + mul x x)).

Definition atan_unit (x : Z) : Z :=
  let y := halve (halve x) in 4 * odd_series 50 (-1) y (mul y y) 1 y.

Definition atan (x : Z) : Z :=
  let a := Z.abs x in
  let r := if a <=? one then atan_unit a else half_pi - atan_unit (div one a) in
  if x <? 0 then - r else r.

(** [atan2(y, x)] *)
Definition atan2 (y x : Z) : Z :=
  if 0 <? x then atan (div y x)
  else if x <? 0 then
    (if 0 <=? y then atan (div y x) + pi else atan (div y x) - pi)
  else if 0 <? y then half_pi
  else if y <? 0 then - half_pi
  else 0.

Definition ln (b : Z) : Z :=
  let z := div (b - one) (b + one) in 2 * odd_series 50 1 z (mul z z) 1 z.

Fixpoint exp_series (fuel : nat) (term y n acc : Z) : Z :=
  match fuel with
  | O => acc
  | S fuel' =>
      let term' := mul term y / (n + 1) in
      exp_series fuel' term' y (n + 1) (acc + term')
  end.

Definition exp (y : Z) : Z := exp_series 50 one y 0 one.

(** [pow(b, p)] for a positive base. *)
Definition pow (b p : Z) : Z := exp (mul p (ln b)).

Definition hypot (x y : Z) : Z := sqrt (mul x x + mul y y).

Definition radians (deg : Q) : Z := of_Q deg * pi / (180 * one).
Definition degrees (rad : Z) : Q := to_Q (div (180 * rad) pi).

(** WGS 84: semi-major axis, flattening, eccentricity. *)
Definition semi_major : Z := 6378137.
Definition flattening : Q := 1000000000 # 298257223563.
Definition es : Z := of_Q (2 * flattening - flattening * flattening).
Definition e : Z := sqrt es.

(** [pj_tsfn(phi, sinphi, e)] *)
Definition tsfn (phi sinphi : Z) : Z :=
  div (tan ((half_pi - phi) / 2))
      (pow (div (one - mul e sinphi) (one + mul e sinphi)) (e / 2)).

(** The latitude of true scale, 71 degrees, and the scale [akm1] of the
    polar aspects. *)
Definition phits : Z := radians 71.
Definition akm1 : Z := Eval vm_compute in
  let t := sin phits in
  div (div (cos phits) (tsfn phits t))
      (sqrt (one - mul (mul e t) (mul e t))).

Inductive Pole : Type := N_POLE | S_POLE.

(** At the pole itself, within [1e-15] radians, the radius is 0. *)
Definition pole_eps : Z := of_Q (1 # 1000000000000000).

(** Longitude and latitude in degrees to easting and northing in metres. *)
Definition stere_forward (mode : Pole) (p : Point) : Point :=
  let lam := radians (fst p) in
  let phi := radians (snd p) in
  let coslam := cos lam in
  let sinlam := sin lam in
  let sinphi := sin phi in
  let '(phi, coslam, sinphi) :=
    match mode with
    | S_POLE => (- phi, - coslam, - sinphi)
    | N_POLE => (phi, coslam, sinphi)
    end in
  let x :=
    if Z.abs (phi - half_pi) <? pole_eps then 0
    else mul akm1 (tsfn phi sinphi) in
  let y := - mul x coslam in
  let x := mul x sinlam in
  (fl (to_Q (semi_major * x)), fl (to_Q (semi_major * y))).

(** The iteration of the inverse: at most [NITER = 8] rounds, until two
    successive latitudes differ by less than [CONV = 1e-10].  (PROJ reports
    an error when the rounds are used up; here the last latitude is
    returned.) *)
Definition conv : Z := of_Q (1 # 10000000000).

Fixpoint phi_iteration (fuel : nat) (tp halfe halfpi phi_l : Z) : Z :=
  match fuel with
  | O => phi_l
  | S fuel' =>
      let sinphi := mul e (sin phi_l) in
      let phi :=
        2 * atan (mul tp (pow (div (one + sinphi) (one - sinphi)) halfe))
        - halfpi in
      if Z.abs (phi_l - phi) <? conv then phi
      else phi_iteration fuel' tp halfe halfpi phi
  end.

(** Easting and northing in metres to longitude and latitude in degrees. *)
Definition stere_inverse (mode : Pole) (p : Point) : Point :=
  let x := of_Q (fst p) / semi_major in
  let y := of_Q (snd p) / semi_major in
  let rho := hypot x y in
  let y := match mode with N_POLE => - y | S_POLE => y end in
  let tp := - div rho akm1 in
  let phi_l := half_pi - 2 * atan tp in
  let phi := phi_iteration 8 tp (- (e / 2)) (- half_pi) phi_l in
  let phi := match mode with S_POLE => - phi | N_POLE => phi end in
  let lam := if (x =? 0) && (y =? 0) then 0 else atan2 x y in
  (fl (degrees lam), fl (degrees phi)).

(** [Transformer.from_crs(src, dst, always_xy=True).transform] between
    EPSG:4326 and the polar systems EPSG:3031 (Antarctic) and EPSG:3995
    (Arctic), both [stere] with true scale at 71 degrees and central
    meridian 0.  Other pairs of codes are not modelled and leave the
    point as it is. *)
Definition pyproj_transform (src_crs dst_crs : Z) (p : Point) : Point :=
  if (src_crs =? 4326) && (dst_crs =? 3031) then stere_forward S_POLE p
  else if (src_crs =? 3031) && (dst_crs =? 4326) then stere_inverse S_POLE p
  else if (src_crs =? 4326) && (dst_crs =? 3995) then stere_forward N_POLE p
  else if (src_crs =? 3995) && (dst_crs =? 4326) then stere_inverse N_POLE p
  else p.

End Proj.

(** ** Tile enumeration and remote paths *)

Module TileLocator.

(** [min(l)] and [max(l)] on a non-empty list of floats. *)
Definition py_min (l : list Q) : Q :=
  match l with [] => 0%Q | x :: rest => Qminimum x rest end.
Definition py_max (l : list Q) : Q :=
  match l with [] => 0%Q | x :: rest => Qmaximum x rest end.

Definition min_lat (geom : list Point) : Q := py_min (List.map snd geom).
Definition max_lat (geom : list Point) : Q := py_max (List.map snd geom).
Definition min_lon (geom : list Point) : Q := py_min (List.map fst geom).
Definition max_lon (geom : list Point) : Q := py_max (List.map fst geom).

(** [list(range(int(np.floor(min_lat)), int(np.ceil(max_lat+1))))] *)
Definition lats (geom : list Point) : list Z :=
  py_range (Qfloor (min_lat geom)) (Qceiling (fl (max_lat geom + 1))).

(** [list(range(int(np.floor(min_lon)), int(np.ceil(max_lon+1))))] *)
Definition longs (geom : list Point) : list Z :=
  py_range (Qfloor (min_lon geom)) (Qceiling (fl (max_lon geom + 1))).

(** [str(n)] for a non-negative integer. *)
Definition py_str (n : N) : string := NilZero.string_of_uint (N.to_uint n).

Fixpoint zeros (k : nat) : string :=
  match k with
  | O => EmptyString
  | S k' => String "0"%char (zeros k')
  end.

(** The format spec [0wd] on a non-negative integer: its decimal digits,
    filled with ['0'] on the left up to [w] characters. *)
Definition py_format_0d (w : nat) (n : N) : string :=
  let s := py_str n in
  zeros (w - String.length s) +:+ s.

Definition lat_dir (lat : Z) : string := if 0 <=? lat then "N" else "S".
Definition long_dir (long : Z) : string := if 0 <=? long then "E" else "W".

(** The f-string appended in the double loop. *)
Definition dem_s3_path (lat long : Z) : string :=
  "Copernicus_DSM_COG_10_" +:+ lat_dir lat +:+
    py_format_0d 2 (Z.to_N (Z.abs lat)) +:+ "_00_" +:+ long_dir long +:+
    py_format_0d 3 (Z.to_N (Z.abs long)) +:+
  "_00_DEM/Copernicus_DSM_COG_10_" +:+ lat_dir lat +:+
    py_format_0d 2 (Z.to_N (Z.abs lat)) +:+ "_00_" +:+ long_dir long +:+
    py_format_0d 3 (Z.to_N (Z.abs long)) +:+
  "_00_DEM.tif".

(** The list the double loop appends to, before de-duplication. *)
Definition dem_s3_paths_raw (lats longs : list Z) : list string :=
  flat_map (fun lat => List.map (fun long => dem_s3_path lat long) longs) lats.

(** [list(set(dem_s3_paths))]: the order of the result is the set's own. *)
Definition dem_s3_paths (lats longs : list Z) : list string :=
  elements (list_to_set (dem_s3_paths_raw lats longs) : gset string).

End TileLocator.

Export TileLocator.

(** ** The download loop

    The cell reads and writes the local file system, calls the bucket and
    prints; a raised exception leaves the [try] body at once and is
    handled by the bare [except].  The effects are threaded through a
    state-and-exception monad over [World]. *)

Module TileFetcher.

Record World : Type := mkWorld {
  files : gset string;              (* paths present on the local disk *)
  requests : list (string * string);(* [download_file] calls: (key, dest) *)
  stdout : list string;             (* printed lines, oldest first *)
  dems_to_merge : list string       (* the list the loop appends to *)
}.

Inductive Exn : Type :=
| IndexError
| ClientError (key : string).

Inductive Result (A : Type) : Type :=
| Ok (a : A)
| Raise (e : Exn).
Arguments Ok {A} a.
Arguments Raise {A} e.

Definition M (A : Type) : Type := World -> Result A * World.

Definition ret {A} (a : A) : M A := fun w => (Ok a, w).

Definition bind {A B} (m : M A) (k : A -> M B) : M B :=
  fun w =>
    match m w with
    | (Ok a, w') => k a w'
    | (Raise e, w') => (Raise e, w')
    end.

#[export] Instance M_ret : MRet M := @ret.
#[export] Instance M_bind : MBind M := fun A B k m => bind m k.

Definition raise {A} (e : Exn) : M A := fun w => (Raise e, w).

(** [try: body except: handler] *)
Definition try_except (body handler : M unit) : M unit :=
  fun w =>
    match body w with
    | (Ok u, w') => (Ok u, w')
    | (Raise _, w') => handler w'
    end.

Fixpoint for_each {A} (l : list A) (body : A -> M unit) : M unit :=
  match l with
  | [] => ret tt
  | x :: l' => body x ;; for_each l' body
  end.

Definition print (line : string) : M unit :=
  fun w => (Ok tt, mkWorld (files w) (requests w) (stdout w ++ [line])
                           (dems_to_merge w)).

Definition append_dem (p : string) : M unit :=
  fun w => (Ok tt, mkWorld (files w) (requests w) (stdout w)
                           (dems_to_merge w ++ [p])).

(** [os.path.exists(p)] *)
Definition path_exists (p : string) : M bool :=
  fun w => (Ok (bool_decide (p ∈ files w)), w).

(** [s.split(sep)] for a one-character separator. *)
Fixpoint split_on (sep : ascii) (s : string) : list string :=
  match s with
  | EmptyString => [EmptyString]
  | String c s' =>
      if Ascii.eqb c sep then EmptyString :: split_on sep s'
      else match split_on sep s' with
           | h :: t => String c h :: t
           | [] => [String c EmptyString]
           end
  end.

(** [l[i]] *)
Definition index (l : list string) (i : nat) : M string :=
  match l !! i with
  | Some x => ret x
  | None => raise IndexError
  end.

Fixpoint ends_with (c : ascii) (s : string) : bool :=
  match s with
  | EmptyString => false
  | String a EmptyString => Ascii.eqb a c
  | String _ s' => ends_with c s'
  end.

Definition starts_with (c : ascii) (s : string) : bool :=
  match s with
  | String a _ => Ascii.eqb a c
  | EmptyString => false
  end.

(** [os.path.join(a, b)] (posixpath). *)
Definition os_path_join (a b : string) : string :=
  if starts_with "/" b then b
  else if String.eqb a "" || ends_with "/" a then a +:+ b
  else a +:+ "/" +:+ b.

Section Loop.

(** The keys of the objects in the bucket, and [dem_download_folder]. *)
Variable bucket : gset string.
Variable dem_download_folder : string.

(** [bucket.download_file(key, dest)]: writes [dest] when the object
    exists, raises otherwise. *)
Definition download_file (key dest : string) : M unit :=
  fun w =>
    let w' := mkWorld (files w) (requests w ++ [(key, dest)]) (stdout w)
                      (dems_to_merge w) in
    if bool_decide (key ∈ bucket)
    then (Ok tt, mkWorld ({[dest]} ∪ files w') (requests w') (stdout w')
                         (dems_to_merge w'))
    else (Raise (ClientError key), w').

Definition fetch_one (s3_path : string) : M unit :=
  try_except
    (name ← index (split_on "/" s3_path) 1 ;
     let dl_path := os_path_join dem_download_folder name in
     present ← path_exists dl_path ;
     if negb present then
       download_file s3_path dl_path ;;
       print ("downloaded : " +:+ s3_path) ;;
       append_dem dl_path
     else
       print ("file exists : " +:+ s3_path) ;;
       append_dem dl_path)
    (print ("not found : " +:+ s3_path)).

Definition fetch_all (dem_s3_paths : list string) : M unit :=
  for_each dem_s3_paths fetch_one.

(** The local path of an identifier, when it has one. *)
Definition local_path (s3_path : string) : option string :=
  os_path_join dem_download_folder <$> (split_on "/" s3_path !! 1%nat).

End Loop.

(** The world the cell starts from: nothing requested, nothing printed,
    [dems_to_merge = []]. *)
Definition initial_world (disk : gset string) : World :=
  mkWorld disk [] [] [].

End TileFetcher.

Export TileFetcher.

(** ** Merging the tiles ([gdal_merge.py -n 0 -o out tile1 tile2 ...])

    [gdal_merge.py] is a GDAL utility, not part of the notebook.  The model
    follows its documented behaviour: the output spans the union of the
    input extents and starts zero-filled; the inputs are copied into it in
    command-line order, a later image over the earlier ones; with [-n v] the
    pixels of an input that equal [v] are not copied.  The tiles are taken
    on one common pixel grid (uniform resolution and CRS), each one a
    window of whole pixels; rows count southwards. *)

Module MosaicBuilder.

Record Tile : Type := mkTile {
  col_off : Z;               (* grid column of the tile's west edge *)
  row_off : Z;               (* grid row of the tile's north edge *)
  t_width : Z;
  t_height : Z;
  px : Z -> Z -> Q           (* pixel at (row, col) inside the tile *)
}.

Definition col_end (t : Tile) : Z := col_off t + t_width t.
Definition row_end (t : Tile) : Z := row_off t + t_height t.

(** Does the tile hold the grid pixel (row [r], column [c])? *)
Definition tile_covers (t : Tile) (r c : Z) : bool :=
  (row_off t <=? r) && (r <? row_end t) && (col_off t <=? c) && (c <? col_end t).

(** The tile's value at a grid pixel. *)
Definition tile_at (t : Tile) (r c : Z) : option Q :=
  if tile_covers t r c then Some (px t (r - row_off t) (c - col_off t))
  else None.

(** One input copied into the output band at one pixel. *)
Definition copy_into (nodata : Q) (r c : Z) (dst : Q) (t : Tile) : Q :=
  match tile_at t r c with
  | Some v => if Qeq_bool v nodata then dst else v
  | None => dst
  end.

Definition merged_pixel (nodata : Q) (tiles : list Tile) (r c : Z) : Q :=
  fold_left (copy_into nodata r c) tiles 0%Q.

Definition gdal_merge (nodata : Q) (tiles : list Tile) : option Tile :=
  match tiles with
  | [] => None
  | t0 :: rest =>
      let ulc := fold_left Z.min (List.map col_off rest) (col_off t0) in
      let ulr := fold_left Z.min (List.map row_off rest) (row_off t0) in
      let lrc := fold_left Z.max (List.map col_end rest) (col_end t0) in
      let lrr := fold_left Z.max (List.map row_end rest) (row_end t0) in
      Some (mkTile ulc ulr (lrc - ulc) (lrr - ulr)
              (fun r c => merged_pixel nodata tiles (ulr + r) (ulc + c)))
  end.

(** The cell "Merge the DEM". *)
Definition merge_dem (dems_to_merge : list Tile) : option Tile :=
  gdal_merge 0 dems_to_merge.

(** The values the tiles holding a grid pixel have there. *)
Definition overlapping_values (tiles : list Tile) (r c : Z) : list Q :=
  omap (fun t => tile_at t r c) tiles.

End MosaicBuilder.

(** ** Expanding the merged DEM to the scene bounds

    A raster is modelled by its georeferencing (rasterio's profile).  The
    pixel buffer, written by [np.full] and combined by
    [rasterio.merge.merge], is outside the model: the statements below are
    about extents. *)

Module CoverageExpander.

(** A north-up affine transform: [x = c + a * col], [y = f + e * row]. *)
Record Affine : Type := mkAffine {
  af_a : Q;
  af_c : Q;
  af_e : Q;
  af_f : Q
}.

Record Profile : Type := mkProfile {
  width : Z;
  height : Z;
  transform : Affine;
  nodata : option Q
}.

(** [rasterio.transform.from_origin(west, north, xsize, ysize)] *)
Definition from_origin (west north xsize ysize : Q) : Affine :=
  mkAffine xsize west (- ysize) north.

(** [src.res]: pixel width and height. *)
Definition res (src : Profile) : Q * Q :=
  (af_a (transform src), (- af_e (transform src))%Q).

(** [rasterio.transform.array_bounds(height, width, transform)] *)
Definition array_bounds (height width : Z) (t : Affine) : Bounds :=
  mkBounds (af_c t) (af_f t + af_e t * inject_Z height)%Q
           (af_c t + af_a t * inject_Z width)%Q (af_f t).

Definition bounds (src : Profile) : Bounds :=
  array_bounds (height src) (width src) (transform src).

(** The georeferencing of [rasterio.merge.merge(datasets=[first, second])]:
    the union of the two extents at the resolution of the first. *)
Definition merge (first second : Profile) : Profile :=
  let b1 := bounds first in
  let b2 := bounds second in
  let dst_w := Qmin (x_min b1) (x_min b2) in
  let dst_s := Qmin (y_min b1) (y_min b2) in
  let dst_e := Qmax (x_max b1) (x_max b2) in
  let dst_n := Qmax (y_max b1) (y_max b2) in
  let '(res0, res1) := res first in
  let output_width := py_round ((dst_e - dst_w) / res0) in
  let output_height := py_round ((dst_n - dst_s) / res1) in
  mkProfile output_width output_height
            (from_origin dst_w dst_n res0 res1) (nodata first).

(** The bounds [expand_raster_with_bounds] prints as "New raster bounds". *)
Definition expanded_bounds (src : Profile) (old_bounds new_bounds : Bounds)
  : Bounds :=
  let '(mkBounds old_left old_bottom old_right old_top) := old_bounds in
  let '(mkBounds new_left new_bottom new_right new_top) := new_bounds in
  let '(res0, res1) := res src in
  let new_left :=
    (old_left - inject_Z (py_int (Qabs (new_left - old_left) / res0)) * res0)%Q in
  let new_right :=
    (old_right + inject_Z (py_int (Qabs (new_right - old_right) / res0)) * res0)%Q in
  let new_bottom :=
    (old_bottom - inject_Z (py_int (Qabs (new_bottom - old_bottom) / res1)) * res1)%Q in
  let new_top :=
    (old_top + inject_Z (py_int (Qabs (new_top - old_top) / res1)) * res1)%Q in
  mkBounds new_left new_bottom new_right new_top.

Definition expand_raster_with_bounds
    (src : Profile) (old_bounds new_bounds : Bounds) : Profile :=
  let '(mkBounds new_left new_bottom new_right new_top) :=
    expanded_bounds src old_bounds new_bounds in
  let '(res0, res1) := res src in
  let new_width := py_int ((new_right - new_left) / res0) in
  let new_height := py_int ((new_top - new_bottom) / res1) in
  let transform := from_origin new_left new_top res0 res1 in
  let tmp := mkProfile new_width new_height transform (nodata src) in
  merge tmp src.

(** The cell "Ensure the DEM covers the scene ROI for ISCE3": the DEM that
    [merged_dem_path] names afterwards. *)
Definition ensure_coverage (dem : Profile) (scene_bounds : Bounds) : Profile :=
  let dem_bounds := array_bounds (height dem) (width dem) (transform dem) in
  if negb (contains_properly dem_bounds scene_bounds)
  then expand_raster_with_bounds dem dem_bounds scene_bounds
  else dem.

End CoverageExpander.

Export CoverageExpander.

(** ** Referencing the DEM to the ellipsoid

    The cell hands the whole band and its profile to
    [dem_stitcher.geoid.remove_geoid], an external library, and writes what
    comes back; it does no arithmetic and no masking of its own. *)

Module VerticalDatum.

Section WithGeoid.

Variable remove_geoid :
  list (list Q) -> Profile -> string -> string -> list (list Q).

Definition reference_to_ellipsoid
    (dem_arr : list (list Q)) (dem_profile : Profile) : list (list Q) :=
  let geoid_name := "egm_08" in
  let dst_area_or_point := "Point" in
  remove_geoid dem_arr dem_profile geoid_name dst_area_or_point.

End WithGeoid.

End VerticalDatum.

(** ** Vocabulary of the statements *)

Module Statements.

Import MosaicBuilder.

(** The name of a tile, assembled from its four variable fields. *)
Definition tile_name (lat_dir lat_field long_dir long_field : string) : string :=
  "Copernicus_DSM_COG_10_" +:+ lat_dir +:+ lat_field +:+ "_00_" +:+
  long_dir +:+ long_field +:+ "_00_DEM".

(** The number a string of decimal digits denotes. *)
Definition decimal_value (s : string) : option N :=
  N.of_uint <$> NilEmpty.uint_of_string s.

(** The character of a decimal digit. *)
Definition digit (d : N) : ascii := ascii_of_N (48 + d).

(** Does the character occur in the string? *)
Fixpoint has_char (c : ascii) (s : string) : bool :=
  match s with
  | EmptyString => false
  | String a s' => Ascii.eqb a c || has_char c s'
  end.

Section FetchSpec.

Variable bucket : gset string.
Variable folder : string.
Variable disk : gset string.    (* the files present before the loop *)

(** An identifier resolves when its file is on the disk already or its
    object is in the bucket. *)
Definition resolves (s3_path : string) : Prop :=
  exists d, local_path folder s3_path = Some d /\
            (d ∈ disk \/ s3_path ∈ bucket).

Definition resolved_path (s3_path : string) : option string :=
  match local_path folder s3_path with
  | Some d =>
      if bool_decide (d ∈ disk \/ s3_path ∈ bucket) then Some d else None
  | None => None
  end.

(** The line the loop prints for an identifier. *)
Definition line_of (s3_path : string) : string :=
  match local_path folder s3_path with
  | Some d =>
      if bool_decide (d ∈ disk) then "file exists : " +:+ s3_path
      else if bool_decide (s3_path ∈ bucket) then "downloaded : " +:+ s3_path
      else "not found : " +:+ s3_path
  | None => "not found : " +:+ s3_path
  end.

(** The bucket requests the loop makes for an identifier. *)
Definition request_of (s3_path : string) : list (string * string) :=
  match local_path folder s3_path with
  | Some d => if bool_decide (d ∈ disk) then [] else [(s3_path, d)]
  | None => []
  end.

End FetchSpec.

(** An identifier produced by the naming rule. *)
Definition tile_identifier (s3_path : string) : Prop :=
  exists lat long, s3_path = dem_s3_path lat long.

(** The tile writes the value [v] into the output at grid pixel
    (row [r], column [c]): it holds the pixel and [v] is not the ignored
    value. *)
Definition contributes (nodata : Q) (r c : Z) (t : Tile) (v : Q) : Prop :=
  tile_at t r c = Some v /\ Qeq_bool v nodata = false.

(** The window of [t] lies inside the window of [m]. *)
Definition tile_within (t m : Tile) : Prop :=
  col_off m <= col_off t /\ col_end t <= col_end m /\
  row_off m <= row_off t /\ row_end t <= row_end m.

End Statements.

Export Statements.

(** ** Concrete inputs *)

Module Examples.

Import MosaicBuilder.

(** Scene bounds over northern Australia, latitudes -17.5 to -16.5. *)
Definition scene_nt : Bounds := mkBounds (261 # 2) (-35 # 2) (261 # 2) (-33 # 2).

(** A box across latitude -50, two degrees wide and high. *)
Definition scene_51s : Bounds := mkBounds (-1) (-51) 1 (-49).

(** A box that ends [2 ^ -60] degrees north of the equator. *)
Definition scene_tiny_north : Bounds :=
  mkBounds 3 (-1 # 2) 4 (1 # 2 ^ 60).

(** A 10 x 10 DEM of unit pixels over [0, 10] x [0, 10]. *)
Definition dem_10x10 : Profile := mkProfile 10 10 (from_origin 0 10 1 1) None.

(** Scene bounds a pixel and a half beyond that DEM on every side. *)
Definition scene_beyond : Bounds := mkBounds (-3 # 2) (-3 # 2) (23 # 2) (23 # 2).

(** Scene bounds reaching one pixel south of that DEM, inside it on the
    three other sides. *)
Definition scene_south : Bounds := mkBounds (5 # 2) (-1) 5 5.

(** Two one-pixel tiles on the same grid cell. *)
Definition tile_5 : Tile := mkTile 0 0 1 1 (fun _ _ => 5%Q).
Definition tile_3 : Tile := mkTile 0 0 1 1 (fun _ _ => 3%Q).

(** Two tiles of the scene above; only the first is in the bucket, the
    second is on the disk, a third is nowhere. *)
Definition ids_nt : list string :=
  [dem_s3_path (-17) 130; dem_s3_path (-18) 130; dem_s3_path (-16) 130].
Definition bucket_nt : gset string := {[ dem_s3_path (-17) 130 ]}.
Definition disk_nt : gset string :=
  {[ "dem/Copernicus_DSM_COG_10_S18_00_E130_00_DEM.tif" ]}.

End Examples.

Export Examples.

(** ** Mosaics of tiles side by side *)

Module Mosaics.

Import MosaicBuilder.

(** No two different tiles of the list hold a common grid pixel. *)
Definition non_overlapping (tiles : list Tile) : Prop :=
  forall r c t1 t2, In t1 tiles -> In t2 tiles ->
    tile_covers t1 r c = true -> tile_covers t2 r c = true -> t1 = t2.

(** Two one-pixel tiles side by side. *)
Definition tile_west : Tile := mkTile 0 0 1 1 (fun _ _ => 5%Q).
Definition tile_east : Tile := mkTile 1 0 1 1 (fun _ _ => 3%Q).

End Mosaics.

Export Mosaics.

(** ** Paths, scenes and the run configuration *)

Module Notebook.

(** [os.path.join(a, b, c)]: the components are joined one after the
    other. *)
Definition os_path_join3 (a b c : string) : string :=
  os_path_join (os_path_join a b) c.

(** The cell "paths". *)
Definition download_folder (data_dir : string) : string :=
  os_path_join data_dir "scenes".
Definition precise_orb_download_folder (data_dir : string) : string :=
  os_path_join3 data_dir "orbits" "POEORB".
Definition restituted_orb_download_folder (data_dir : string) : string :=
  os_path_join3 data_dir "orbits" "RESORB".
Definition rtc_outpath (data_dir : string) : string :=
  os_path_join data_dir "results".
Definition rtc_scratch_dir (data_dir : string) : string :=
  os_path_join data_dir "scratch".

(** What the notebook reads of an ASF search result. *)
Record SearchResult : Type := mkSearchResult {
  sceneName : string;
  polarization : string
}.

(** The variable of a [for] loop after the loop: the last element, or what
    it was bound to before when the list is empty. *)
Definition loop_variable {A} (before : option A) (l : list A) : option A :=
  fold_left (fun _ x => Some x) l before.

(** The cell "download all results": [scene_paths]. *)
Definition scene_paths (data_dir : string) (results : list SearchResult)
  : list string :=
  List.map (fun s => os_path_join (download_folder data_dir) (sceneName s))
           results.

(** [scene] when the configuration is edited: bound to the scene name by the
    cell "limit to the first scene", then rebound by
    [for scene in scene_paths]. *)
Definition scene_variable (data_dir : string) (results : list SearchResult)
  : option string :=
  loop_variable (sceneName <$> head (take 1 results))
                (scene_paths data_dir (take 1 results)).

(** [prec_orb_path] after the listing of the precise-orbit folder. *)
Definition prec_orb_path (data_dir : string) (listing : list string)
  : option string :=
  loop_variable None
    (List.map (os_path_join (precise_orb_download_folder data_dir)) listing).

(** The values of the run configuration: the three kinds the notebook
    writes, and any other value of the template, kept as its YAML text. *)
Inductive Value : Type :=
| VStr (s : string)
| VList (l : list string)
| VBool (b : bool)
| VOther (yaml : string).

Inductive ConfigError : Type :=
| KeyError (key : string)
| NameError (name : string).

(** [cfg]: the groups of the run configuration, each a dictionary. *)
Abbreviation Groups := (gmap string (gmap string Value)).

(** [cfg[group][key] = v]: raises when the group is missing. *)
Definition set_item (group key : string) (v : Value) (cfg : Groups)
  : ConfigError + Groups :=
  match cfg !! group with
  | Some g => inr (<[group := <[key := v]> g]> cfg)
  | None => inl (KeyError group)
  end.

(** Statements in sequence on the dictionary, which is edited in place: an
    exception leaves the edits made so far. *)
Definition and_then (r : ConfigError * Groups + Groups)
    (f : Groups -> ConfigError + Groups) : ConfigError * Groups + Groups :=
  match r with
  | inl failed => inl failed
  | inr cfg =>
      match f cfg with
      | inl e => inl (e, cfg)
      | inr cfg' => inr cfg'
      end
  end.

(** A variable read: raises when it is not bound. *)
Definition read_variable (name : string) (v : option string)
    (k : string -> Groups -> ConfigError + Groups) (cfg : Groups)
  : ConfigError + Groups :=
  match v with
  | Some s => k s cfg
  | None => inl (NameError name)
  end.

Section EditConfig.

Variable data_dir : string.
Variable scene : option string.
Variable prec_orb_path : option string.
Variable dem_path : string.
Variable name : string.
Variable pol : string.

(** The cell "Change some parameters of the config". *)
Definition edit_config (cfg : Groups) : ConfigError * Groups + Groups :=
  and_then (and_then (and_then (and_then (and_then (and_then (and_then
  (and_then (and_then (inr cfg)
    (read_variable "scene" scene (fun scene =>
       set_item "input_file_group" "safe_file_path"
         (VList [os_path_join data_dir (scene +:+ ".zip")]))))
    (read_variable "prec_orb_path" prec_orb_path (fun prec_orb_path =>
       set_item "input_file_group" "orbit_file_path" (VList [prec_orb_path]))))
    (set_item "dynamic_ancillary_file_group" "dem_file" (VStr dem_path)))
    (set_item "product_group" "output_dir" (VStr (rtc_outpath data_dir))))
    (set_item "product_group" "save_mosaics" (VBool true)))
    (set_item "product_group" "product_path" (VStr ".")))
    (set_item "product_group" "scratch_path" (VStr (rtc_scratch_dir data_dir))))
    (set_item "product_group" "product_id"
       (VStr ("OPERA_L2_RTC-S1_" +:+ name))))
    (set_item "processing" "polarization"
       (VStr (if (2 <? String.length pol)%nat then "dual-pol" else "co-pol"))).

End EditConfig.

(** The value a key of a group has in the configuration. *)
Definition config_value (cfg : Groups) (group key : string) : option Value :=
  cfg !! group ≫= fun g => g !! key.

(** The (group, key) pairs the cell assigns. *)
Definition edited_keys : list (string * string) :=
  [ ("input_file_group", "safe_file_path");
    ("input_file_group", "orbit_file_path");
    ("dynamic_ancillary_file_group", "dem_file");
    ("product_group", "output_dir");
    ("product_group", "save_mosaics");
    ("product_group", "product_path");
    ("product_group", "scratch_path");
    ("product_group", "product_id");
    ("processing", "polarization") ].

(** A template with the four groups the notebook writes to. *)
Definition cfg_template : Groups :=
  {[ "input_file_group" :=
       {[ "safe_file_path" := VOther "null"; "burst_id" := VOther "null" ]};
     "dynamic_ancillary_file_group" := {[ "dem_file" := VOther "null" ]};
     "product_group" := {[ "product_version" := VOther "1.0" ]};
     "processing" := {[ "polarization" := VOther "null" ]} ]}.

End Notebook.

(** * Properties *)

Import MosaicBuilder.

(** ** Numeric facts *)

Section NumericFacts.

Lemma py_int_nonneg (q : Q) : (0 <= q)%Q -> 0 <= py_int q.
Proof.
destruct q as [n d]. unfold Qle, py_int. simpl. intros H.
apply Z.quot_pos; lia.
Qed.

Lemma Qltb_lt (x y : Q) : Qltb x y = true <-> (x < y)%Q.
Proof.
unfold Qltb. rewrite Qlt_alt. destruct (x ?= y)%Q; split; congruence.
Qed.

Lemma Qltb_ge (x y : Q) : Qltb x y = false <-> (y <= x)%Q.
Proof.
unfold Qltb. rewrite Qle_alt, <- (Qcompare_antisym x y).
destruct (x ?= y)%Q; simpl; split; congruence.
Qed.

(** The padding of one side is a non-negative length. *)
Lemma pad_nonneg (d r : Q) :
(0 < r)%Q -> (0 <= inject_Z (py_int (Qabs d / r)) * r)%Q.
Proof.
intros Hr. apply Qmult_le_0_compat; [| lra].
change 0%Q with (inject_Z 0). rewrite <- Zle_Qle.
apply py_int_nonneg. apply Qle_shift_div_l; [assumption |].
rewrite Qmult_0_l. apply Qabs_nonneg.
Qed.

Lemma in_py_range (a b k : Z) : In k (py_range a b) <-> a <= k < b.
Proof.
unfold py_range. rewrite in_map_iff. split.
- intros [i [<- Hi]]. apply in_seq in Hi. lia.
- intros H. exists (Z.to_nat (k - a)). split; [lia |].
  apply in_seq. lia.
Qed.

Lemma NoDup_py_range (a b : Z) : List.NoDup (py_range a b).
Proof.
unfold py_range. apply Finite.Injective_map_NoDup.
- intros i j H. lia.
- apply List.seq_NoDup.
Qed.

Lemma Qceiling_succ (x : Q) : Qceiling (x + 1) = Qceiling x + 1.
Proof.
pose proof (Qceiling_lt (x + 1)) as Hlt1. pose proof (Qle_ceiling x) as Hle.
pose proof (Qceiling_lt x) as Hlt. pose proof (Qle_ceiling (x + 1)) as Hle1.
assert (H1 : Qceiling (x + 1) - 1 < Qceiling x + 1).
{ rewrite Zlt_Qlt, inject_Z_plus. change (inject_Z 1) with 1%Q. lra. }
assert (H2 : Qceiling x - 1 + 1 < Qceiling (x + 1)).
{ rewrite Zlt_Qlt, inject_Z_plus. change (inject_Z 1) with 1%Q. lra. }
lia.
Qed.

Lemma py_int_floor (q : Q) : (0 <= q)%Q -> py_int q = Qfloor q.
Proof.
  destruct q as [n d]. unfold Qle, py_int, Qfloor. simpl. intros H.
  apply Z.quot_div_nonneg; lia.
Qed.

Lemma py_int_inject_Z (q : Q) (z : Z) :
  0 <= z -> (q == inject_Z z)%Q -> py_int q = z.
Proof.
  intros Hz Hq. rewrite py_int_floor.
  - rewrite (Qfloor_comp _ _ Hq). apply Qfloor_Z.
  - rewrite Hq. change 0%Q with (inject_Z 0). rewrite <- Zle_Qle. exact Hz.
Qed.

Lemma py_round_inject_Z (q : Q) (z : Z) :
  (q == inject_Z z)%Q -> py_round q = z.
Proof.
  intros Hq. unfold py_round.
  rewrite (Qfloor_comp _ _ Hq), Qfloor_Z.
  assert (H : (q - inject_Z z ?= 1 # 2)%Q = Lt).
  { apply Qlt_alt. rewrite Hq. unfold Qminus. rewrite Qplus_opp_r. reflexivity. }
  rewrite H. reflexivity.
Qed.

(** The whole pixels in a distance: at most the distance, and less than
    one pixel short of it. *)
Lemma pad_floor (d r : Q) :
  (0 < r)%Q ->
  (inject_Z (py_int (Qabs d / r)) * r <= Qabs d)%Q /\
  (Qabs d < inject_Z (py_int (Qabs d / r)) * r + r)%Q.
Proof.
  intros Hr. pose proof (Qabs_nonneg d) as Hd. revert Hd.
  generalize (Qabs d). clear d. intros d Hd.
  assert (Hq : (0 <= d / r)%Q).
  { apply Qle_shift_div_l; [assumption |]. rewrite Qmult_0_l. assumption. }
  rewrite (py_int_floor _ Hq).
  pose proof (Qfloor_le (d / r)) as Hlo.
  pose proof (Qlt_floor (d / r)) as Hhi.
  rewrite inject_Z_plus in Hhi. change (inject_Z 1) with 1%Q in Hhi.
  assert (Hd' : (d == d / r * r)%Q) by (field; lra).
  assert (A : (inject_Z (Qfloor (d / r)) * r <= d / r * r)%Q)
    by (apply Qmult_le_compat_r; [assumption | lra]).
  assert (B : (d / r * r < (inject_Z (Qfloor (d / r)) + 1) * r)%Q)
    by (apply Qmult_lt_compat_r; assumption).
  revert Hd' A B. generalize (d / r * r)%Q. intros x Hd' A B.
  split; lra.
Qed.

Lemma py_int_small (q : Q) : (0 <= q)%Q -> (q < 1)%Q -> py_int q = 0.
Proof.
  intros H0 H1. rewrite (py_int_floor _ H0).
  pose proof (Qfloor_le q) as Hlo. pose proof (Qlt_floor q) as Hhi.
  assert (A : -1 < Qfloor q).
  { rewrite Zlt_Qlt. rewrite inject_Z_plus in Hhi.
    change (inject_Z 1) with 1%Q in Hhi. change (inject_Z (-1)) with (-1)%Q.
    lra. }
  assert (B : Qfloor q < 1).
  { rewrite Zlt_Qlt. change (inject_Z 1) with 1%Q. lra. }
  lia.
Qed.

Lemma pad_zero (d r : Q) :
  (0 < r)%Q -> (Qabs d < r)%Q -> (inject_Z (py_int (Qabs d / r)) * r == 0)%Q.
Proof.
  intros Hr Hd. rewrite py_int_small.
  - ring.
  - apply Qle_shift_div_l; [assumption |]. rewrite Qmult_0_l.
    apply Qabs_nonneg.
  - apply Qlt_shift_div_r; [assumption |]. rewrite Qmult_1_l. assumption.
Qed.

End NumericFacts.

(** ** Strings *)

Section StringFacts.

Lemma string_app_cons (ch : ascii) (a b : string) :
String ch a +:+ b = String ch (a +:+ b).
Proof. reflexivity. Qed.

Lemma string_app_assoc (a b c : string) : (a +:+ b) +:+ c = a +:+ (b +:+ c).
Proof.
induction a as [| ch a IH]; [reflexivity |].
rewrite !string_app_cons. f_equal. exact IH.
Qed.

Lemma string_app_length (a b : string) :
String.length (a +:+ b) = (String.length a + String.length b)%nat.
Proof.
induction a as [| ch a IH]; [reflexivity |].
rewrite string_app_cons. cbn [String.length]. now rewrite IH.
Qed.

Lemma string_app_inv_tail (a b c : string) : a +:+ c = b +:+ c -> a = b.
Proof.
revert b. induction a as [| x a IH]; intros [| y b] H.
- reflexivity.
- apply (f_equal String.length) in H.
  rewrite !string_app_length in H. cbn [String.length] in H. lia.
- apply (f_equal String.length) in H.
  rewrite !string_app_length in H. cbn [String.length] in H. lia.
- rewrite !string_app_cons in H. injection H as -> H. f_equal. auto.
Qed.

Lemma has_char_app (c : ascii) (a b : string) :
has_char c (a +:+ b) = has_char c a || has_char c b.
Proof.
induction a as [| x a IH]; [reflexivity |].
rewrite string_app_cons. cbn [has_char]. rewrite IH. apply orb_assoc.
Qed.

Lemma split_on_absent (c : ascii) (s : string) :
has_char c s = false -> split_on c s = [s].
Proof.
induction s as [| x s IH]; [reflexivity |].
cbn [has_char split_on]. intros H. apply orb_false_iff in H as [Hx Hs].
rewrite Hx, (IH Hs). reflexivity.
Qed.

Lemma split_on_app (c : ascii) (a b : string) :
has_char c a = false ->
split_on c (a +:+ String c b) = a :: split_on c b.
Proof.
induction a as [| x a IH]; intros H.
- change ("" +:+ String c b) with (String c b).
  cbn [split_on]. rewrite Ascii.eqb_refl. reflexivity.
- cbn [has_char] in H. apply orb_false_iff in H as [Hx Ha].
  rewrite string_app_cons. cbn [split_on]. rewrite Hx, (IH Ha). reflexivity.
Qed.

End StringFacts.

(** ** The bounds adjustment is skipped at mid-latitudes *)

(** C4: for scene bounds whose two latitude bounds both satisfy
    [|lat| <= 50], the adjustment cell leaves the bounds as they are,
    whatever the coordinate transformer does: neither the southern test
    ([< -50]) nor the northern test ([> 50]) fires. *)
Theorem adjust_scene_bounds_noop
    (transform : Z -> Z -> Point -> Point) (scene_bounds : Bounds) :
  (Qabs (y_min scene_bounds) <= 50)%Q ->
  (Qabs (y_max scene_bounds) <= 50)%Q ->
  adjust_scene_bounds transform scene_bounds = scene_bounds.
Proof.
  intros Hmin Hmax.
  apply Qabs_Qle_condition in Hmin, Hmax.
  destruct Hmin as [Hmin_lo Hmin_hi], Hmax as [Hmax_lo Hmax_hi].
  unfold adjust_scene_bounds, Qgtb.
  assert (Hs1 : Qltb (y_min scene_bounds) (-50) = false)
    by (apply Qltb_ge; exact Hmin_lo).
  assert (Hs2 : Qltb (y_max scene_bounds) (-50) = false)
    by (apply Qltb_ge; exact Hmax_lo).
  rewrite Hs1, Hs2. cbn [orb].
  assert (Hn1 : Qltb 50 (y_min scene_bounds) = false)
    by (apply Qltb_ge; exact Hmin_hi).
  assert (Hn2 : Qltb 50 (y_max scene_bounds) = false)
    by (apply Qltb_ge; exact Hmax_hi).
  rewrite Hn1, Hn2. reflexivity.
Qed.

Lemma adjust_scene_bounds_noop_witness :
  adjust_scene_bounds (fun _ _ p => p) scene_nt = scene_nt.
Proof.
  apply (adjust_scene_bounds_noop (fun _ _ p => p) scene_nt).
  - vm_compute. discriminate.
  - vm_compute. discriminate.
Defined.

(** ** The bounds adjustment across latitude -50 *)

(** C2 fails in the code: on the box with longitudes -1 to 1 and latitudes
    -51 to -49 the cell, with the Antarctic polar stereographic projection,
    returns a southern bound of about -50.99937, north of -51.  The corners
    of the box that encloses the projected perimeter lie farther from the
    pole than the southern side of the scene, so the corrected box does not
    cover the box it was given. *)
Theorem adjust_shrinks_south_example :
  (y_min scene_51s
   < y_min (adjust_scene_bounds Proj.pyproj_transform scene_51s))%Q /\
  (-5099938 # 100000
   < y_min (adjust_scene_bounds Proj.pyproj_transform scene_51s))%Q /\
  (y_min (adjust_scene_bounds Proj.pyproj_transform scene_51s)
   < -5099937 # 100000)%Q /\
  ~ covers (adjust_scene_bounds Proj.pyproj_transform scene_51s) scene_51s.
Proof.
  set (corrected := adjust_scene_bounds Proj.pyproj_transform scene_51s).
  assert (E : (-5099938 # 100000 < y_min corrected)%Q /\
              (y_min corrected < -5099937 # 100000)%Q).
  { vm_compute. split; reflexivity. }
  destruct E as [E1 E2].
  assert (S : (y_min scene_51s == -51)%Q) by reflexivity.
  split; [rewrite S; lra |]. split; [exact E1 |]. split; [exact E2 |].
  intros (_ & H & _). rewrite S in H. lra.
Qed.

(** ** Rounding to a double *)

Section Rounding.


Lemma py_round_ge (y : Q) (n : Z) : (inject_Z n <= y)%Q -> n <= py_round y.
Proof.
  intros H. assert (Hf : n <= Qfloor y).
  { rewrite <- (Qfloor_Z n). apply Qfloor_resp_le, H. }
  unfold py_round.
  destruct (Qcompare (y - inject_Z (Qfloor y)) (1 # 2)); [| lia | lia].
  destruct (Z.even (Qfloor y)); lia.
Qed.

Lemma py_round_le (y : Q) (n : Z) : (y <= inject_Z n)%Q -> py_round y <= n.
Proof.
  intros H. pose proof (Qfloor_le y) as Hfl.
  assert (Hf : Qfloor y <= n).
  { rewrite <- (Qfloor_Z n). apply Qfloor_resp_le, H. }
  destruct (Z.eq_dec (Qfloor y) n) as [E | E].
  - assert (Hlt : (y - inject_Z (Qfloor y) < 1 # 2)%Q).
    { rewrite E. lra. }
    unfold py_round.
    destruct (Qcompare_spec (y - inject_Z (Qfloor y)) (1 # 2)) as [C | C | C];
      [lra | lia | lra].
  - unfold py_round.
    destruct (Qcompare (y - inject_Z (Qfloor y)) (1 # 2)); [| lia | lia].
    destruct (Z.even (Qfloor y)); lia.
Qed.

Lemma binade_le_52 (x : Q) :
  (Qabs x < inject_Z (2 ^ 53))%Q -> binade x <= 52.
Proof.
  intros H. unfold binade. apply Z.max_lub; [lia |].
  destruct (Qle_bool 1 (Qabs x)) eqn:E.
  - apply Qle_bool_iff in E.
    assert (H1 : 1 <= Qfloor (Qabs x)).
    { rewrite <- (Qfloor_Z 1). apply Qfloor_resp_le, E. }
    assert (H2 : Qfloor (Qabs x) < 2 ^ 53).
    { rewrite Zlt_Qlt. eapply Qle_lt_trans; [apply Qfloor_le | exact H]. }
    apply Z.lt_succ_r. change (Z.succ 52) with 53.
    apply Z.log2_lt_pow2; lia.
  - pose proof (Z.log2_up_nonneg (Qceiling (/ Qabs x))). lia.
Qed.

(** Below [2 ^ 53] the doubles are spaced by one over an integer. *)
Lemma ulp_inv (x : Q) :
  (Qabs x < inject_Z (2 ^ 53))%Q -> exists K : positive, ulp x = 1 # K.
Proof.
  intros H. apply binade_le_52 in H. unfold ulp, pow2.
  destruct (0 <=? binade x - 52) eqn:E.
  - apply Z.leb_le in E. replace (binade x - 52) with 0 by lia.
    exists 1%positive. reflexivity.
  - eexists. reflexivity.
Qed.

(** Rounding to a double never crosses an integer, below [2 ^ 53]. *)
Lemma unscale (n : Z) (K : positive) :
  (inject_Z n * inject_Z (Z.pos K) * (1 # K) == inject_Z n)%Q.
Proof. unfold Qeq, Qmult, inject_Z. simpl. lia. Qed.

Lemma fl_ge_Z (x : Q) (n : Z) :
  (Qabs x < inject_Z (2 ^ 53))%Q -> (inject_Z n <= x)%Q ->
  (inject_Z n <= fl x)%Q.
Proof.
  intros Hx Hn. destruct (ulp_inv x Hx) as (K & HK). unfold fl. rewrite HK.
  assert (Hr : n * Zpos K <= py_round (x / (1 # K))).
  { apply py_round_ge. apply Qle_shift_div_l; [reflexivity |].
    rewrite inject_Z_mult, unscale. exact Hn. }
  rewrite Zle_Qle, inject_Z_mult in Hr.
  apply (Qmult_le_compat_r _ _ (1 # K)) in Hr; [| discriminate].
  rewrite unscale in Hr. exact Hr.
Qed.

Lemma fl_le_Z (x : Q) (n : Z) :
  (Qabs x < inject_Z (2 ^ 53))%Q -> (x <= inject_Z n)%Q ->
  (fl x <= inject_Z n)%Q.
Proof.
  intros Hx Hn. destruct (ulp_inv x Hx) as (K & HK). unfold fl. rewrite HK.
  assert (Hr : py_round (x / (1 # K)) <= n * Zpos K).
  { apply py_round_le. apply Qle_shift_div_r; [reflexivity |].
    rewrite inject_Z_mult, unscale. exact Hn. }
  rewrite Zle_Qle, inject_Z_mult in Hr.
  apply (Qmult_le_compat_r _ _ (1 # K)) in Hr; [| discriminate].
  rewrite unscale in Hr. exact Hr.
Qed.

Lemma py_round_comp (x y : Q) : (x == y)%Q -> py_round x = py_round y.
Proof.
  intros H. unfold py_round. rewrite (Qfloor_comp _ _ H).
  assert (E : (x - inject_Z (Qfloor y) ?= 1 # 2)%Q
              = (y - inject_Z (Qfloor y) ?= 1 # 2)%Q)
    by (apply Qcompare_comp; [rewrite H |]; reflexivity).
  rewrite E. reflexivity.
Qed.

Lemma binade_comp (x y : Q) : (x == y)%Q -> binade x = binade y.
Proof.
  intros H. unfold binade.
  assert (Ha : (Qabs x == Qabs y)%Q) by (rewrite H; reflexivity).
  assert (Eb : Qle_bool 1 (Qabs x) = Qle_bool 1 (Qabs y)).
  { destruct (Qle_bool 1 (Qabs x)) eqn:E1, (Qle_bool 1 (Qabs y)) eqn:E2;
      try reflexivity.
    - apply Qle_bool_iff in E1. rewrite Ha in E1.
      apply Qle_bool_iff in E1. congruence.
    - apply Qle_bool_iff in E2. rewrite <- Ha in E2.
      apply Qle_bool_iff in E2. congruence. }
  rewrite Eb, (Qfloor_comp _ _ Ha).
  assert (Hi : (/ Qabs x == / Qabs y)%Q) by (rewrite Ha; reflexivity).
  rewrite (Qceiling_comp _ _ Hi). reflexivity.
Qed.

Lemma fl_comp (x y : Q) : (x == y)%Q -> (fl x == fl y)%Q.
Proof.
  intros H. unfold fl, ulp. rewrite (binade_comp x y H).
  assert (E : (x / pow2 (binade y - 52) == y / pow2 (binade y - 52))%Q)
    by (rewrite H; reflexivity).
  rewrite (py_round_comp _ _ E). reflexivity.
Qed.

(** The stop of a band range, [ceil(fl(m + 1))], lies above [floor(m)]
    and at most one above [ceil(m)]. *)
Lemma band_stop_bounds (m : Q) :
  (Qabs (m + 1) < inject_Z (2 ^ 53))%Q ->
  Qfloor m < Qceiling (fl (m + 1)) <= Qceiling m + 1.
Proof.
  intros Hm. split.
  - assert (H : (inject_Z (Qfloor m + 1) <= fl (m + 1))%Q).
    { apply fl_ge_Z; [exact Hm |]. rewrite inject_Z_plus.
      pose proof (Qfloor_le m). change (inject_Z 1) with 1%Q. lra. }
    apply Qceiling_resp_le in H. rewrite Qceiling_Z in H. lia.
  - assert (H : (fl (m + 1) <= inject_Z (Qceiling m + 1))%Q).
    { apply fl_le_Z; [exact Hm |]. rewrite inject_Z_plus.
      pose proof (Qle_ceiling m). change (inject_Z 1) with 1%Q. lra. }
    apply Qceiling_resp_le in H. rewrite Qceiling_Z in H. exact H.
Qed.

End Rounding.

(** ** The latitude and longitude bands *)

Section SceneGeom.

Variable sb : Bounds.
Hypothesis Hx : (x_min sb <= x_max sb)%Q.
Hypothesis Hy : (y_min sb <= y_max sb)%Q.

Lemma scene_geom_cases :
  scene_geom sb =
    [ (x_min sb, y_min sb); (x_max sb, y_min sb);
      (x_max sb, y_max sb); (x_min sb, y_max sb) ] \/
  scene_geom sb =
    [ (x_min sb, y_min sb); (x_max sb, y_min sb);
      (x_max sb, y_max sb); (x_min sb, y_max sb); (x_min sb, y_min sb) ].
Proof.
  unfold scene_geom, exterior_coords. cbn [last fst snd].
  destruct (Qeq_bool (x_min sb) (x_min sb) && Qeq_bool (y_min sb) (y_max sb));
    [left | right]; reflexivity.
Qed.

Lemma min_lat_scene_geom : (min_lat (scene_geom sb) == y_min sb)%Q.
Proof.
  destruct scene_geom_cases as [-> | ->]; unfold min_lat, py_min, Qminimum;
    cbn [List.map snd fold_left];
    rewrite ?(Q.min_l (y_min sb) (y_min sb)), ?(Q.min_l (y_min sb) (y_max sb));
    rewrite ?(Q.min_l (y_min sb) (y_max sb)), ?(Q.min_l (y_min sb) (y_min sb));
    try reflexivity; try assumption; apply Qle_refl.
Qed.

Lemma max_lat_scene_geom : (max_lat (scene_geom sb) == y_max sb)%Q.
Proof.
  destruct scene_geom_cases as [-> | ->]; unfold max_lat, py_max, Qmaximum;
    cbn [List.map snd fold_left];
    rewrite (Q.max_l (y_min sb) (y_min sb)) by apply Qle_refl;
    rewrite (Q.max_r (y_min sb) (y_max sb)) by assumption;
    rewrite (Q.max_l (y_max sb) (y_max sb)) by apply Qle_refl;
    rewrite ?(Q.max_l (y_max sb) (y_min sb)) by assumption; reflexivity.
Qed.

Lemma min_lon_scene_geom : (min_lon (scene_geom sb) == x_min sb)%Q.
Proof.
  destruct scene_geom_cases as [-> | ->]; unfold min_lon, py_min, Qminimum;
    cbn [List.map fst fold_left];
    rewrite (Q.min_l (x_min sb) (x_max sb)) by assumption;
    rewrite (Q.min_l (x_min sb) (x_max sb)) by assumption;
    rewrite ?(Q.min_l (x_min sb) (x_min sb)) by apply Qle_refl; reflexivity.
Qed.

Lemma max_lon_scene_geom : (max_lon (scene_geom sb) == x_max sb)%Q.
Proof.
  destruct scene_geom_cases as [-> | ->]; unfold max_lon, py_max, Qmaximum;
    cbn [List.map fst fold_left];
    rewrite (Q.max_r (x_min sb) (x_max sb)) by assumption;
    rewrite (Q.max_l (x_max sb) (x_max sb)) by apply Qle_refl;
    rewrite (Q.max_l (x_max sb) (x_min sb)) by assumption;
    rewrite ?(Q.max_l (x_max sb) (x_min sb)) by assumption; reflexivity.
Qed.

End SceneGeom.

(** C5, as the code has it: for scene bounds with [x_min <= x_max] and
    [y_min <= y_max], of magnitude below [2 ^ 53], the enumerated latitude
    bands are exactly the integers from [floor(y_min)] up to, and not
    including, the stop [ceil(fl(y_max + 1))], each once, and likewise for
    the longitude bands.  The last band is at least [floor(max)], so the
    band of every coordinate of the box is enumerated, and at most
    [ceil(max)]; it is [ceil(max)] whenever the sum [max + 1] is exact in
    double precision. *)
Theorem bands_up_to_rounded_stop (sb : Bounds) :
  (x_min sb <= x_max sb)%Q -> (y_min sb <= y_max sb)%Q ->
  (Qabs (x_max sb + 1) < inject_Z (2 ^ 53))%Q ->
  (Qabs (y_max sb + 1) < inject_Z (2 ^ 53))%Q ->
  (forall k, In k (lats (scene_geom sb)) <->
             Qfloor (y_min sb) <= k < Qceiling (fl (y_max sb + 1))) /\
  (forall k, In k (longs (scene_geom sb)) <->
             Qfloor (x_min sb) <= k < Qceiling (fl (x_max sb + 1))) /\
  Qfloor (y_max sb) <= Qceiling (fl (y_max sb + 1)) - 1 <= Qceiling (y_max sb) /\
  Qfloor (x_max sb) <= Qceiling (fl (x_max sb + 1)) - 1 <= Qceiling (x_max sb) /\
  ((fl (y_max sb + 1) == y_max sb + 1)%Q ->
   Qceiling (fl (y_max sb + 1)) - 1 = Qceiling (y_max sb)) /\
  ((fl (x_max sb + 1) == x_max sb + 1)%Q ->
   Qceiling (fl (x_max sb + 1)) - 1 = Qceiling (x_max sb)) /\
  List.NoDup (lats (scene_geom sb)) /\ List.NoDup (longs (scene_geom sb)).
Proof.
  intros Hx Hy Bx By. unfold lats, longs.
  assert (Elat : Qceiling (fl (max_lat (scene_geom sb) + 1))
                 = Qceiling (fl (y_max sb + 1))).
  { apply Qceiling_comp, fl_comp.
    rewrite (max_lat_scene_geom sb Hy). reflexivity. }
  assert (Elon : Qceiling (fl (max_lon (scene_geom sb) + 1))
                 = Qceiling (fl (x_max sb + 1))).
  { apply Qceiling_comp, fl_comp.
    rewrite (max_lon_scene_geom sb Hx). reflexivity. }
  rewrite Elat, Elon.
  rewrite (Qfloor_comp _ _ (min_lat_scene_geom sb Hy)).
  rewrite (Qfloor_comp _ _ (min_lon_scene_geom sb Hx)).
  pose proof (band_stop_bounds (y_max sb) By) as Sy.
  pose proof (band_stop_bounds (x_max sb) Bx) as Sx.
  split; [intros k; rewrite in_py_range; lia |].
  split; [intros k; rewrite in_py_range; lia |].
  split; [lia |]. split; [lia |].
  split; [| split; [| split; apply NoDup_py_range]].
  - intros E. rewrite (Qceiling_comp _ _ E), Qceiling_succ. lia.
  - intros E. rewrite (Qceiling_comp _ _ E), Qceiling_succ. lia.
Qed.

Lemma bands_up_to_rounded_stop_witness :
  (forall k, In k (lats (scene_geom scene_nt)) <-> -18 <= k < -15) /\
  (forall k, In k (longs (scene_geom scene_nt)) <-> 130 <= k < 132).
Proof.
  destruct (bands_up_to_rounded_stop scene_nt) as (Hlat & Hlon & _).
  - vm_compute. discriminate.
  - vm_compute. discriminate.
  - vm_compute. reflexivity.
  - vm_compute. reflexivity.
  - split; [exact Hlat | exact Hlon].
Defined.

(** The sum [max + 1] can round down to an integer: on the box with
    latitudes -0.5 to [2 ^ -60] the stop is 1, and the band 1 = ceil(max)
    is not enumerated. *)
Lemma bands_rounded_sum_example :
  lats (scene_geom scene_tiny_north) = [-1; 0] /\
  Qceiling (max_lat (scene_geom scene_tiny_north)) = 1.
Proof. vm_compute. split; reflexivity. Qed.

(** C5, as stated, fails on the scene spanning latitudes -17.5 to -16.5 at
    longitude 130.5: the bands are -18, -17, -16 and 130, 131; the bands
    [ceil(max) + 1], -15 and 132, are not enumerated. *)
Lemma bands_stop_exclusive_example :
  lats (scene_geom scene_nt) = [-18; -17; -16] /\
  longs (scene_geom scene_nt) = [130; 131] /\
  Qceiling (max_lat (scene_geom scene_nt)) + 1 = -15 /\
  ~ In (Qceiling (max_lat (scene_geom scene_nt)) + 1) (lats (scene_geom scene_nt)) /\
  Qceiling (max_lon (scene_geom scene_nt)) + 1 = 132 /\
  ~ In (Qceiling (max_lon (scene_geom scene_nt)) + 1) (longs (scene_geom scene_nt)).
Proof.
  vm_compute. repeat split; try reflexivity; intuition discriminate.
Qed.

(** ** The naming rule of the remote paths *)

Section Formatting.

Lemma zeros_length (k : nat) : String.length (zeros k) = k.
Proof. induction k; simpl; congruence. Qed.

Lemma decimal_value_zeros (k : nat) (s : string) :
decimal_value (zeros k +:+ s) = decimal_value s.
Proof.
unfold decimal_value. induction k as [| k IH]; [reflexivity |].
cbn [zeros]. rewrite string_app_cons. cbn [NilEmpty.uint_of_string].
destruct (NilEmpty.uint_of_string (zeros k +:+ s)) as [d |];
  destruct (NilEmpty.uint_of_string s) as [d' |]; simpl in *; congruence.
Qed.

Lemma decimal_value_string_of_uint (d : Decimal.uint) :
decimal_value (NilZero.string_of_uint d) = Some (N.of_uint d).
Proof.
unfold decimal_value, NilZero.string_of_uint.
destruct d; [reflexivity | rewrite NilEmpty.usu; reflexivity ..].
Qed.

Lemma decimal_value_py_str (n : N) : decimal_value (py_str n) = Some n.
Proof.
unfold py_str. rewrite decimal_value_string_of_uint.
f_equal. apply DecimalN.Unsigned.of_to.
Qed.

(** The formatted field reads back as the number. *)
Lemma py_format_0d_value (w : nat) (n : N) :
decimal_value (py_format_0d w n) = Some n.
Proof.
unfold py_format_0d. rewrite decimal_value_zeros. apply decimal_value_py_str.
Qed.

Lemma py_format_0d_min_width (w : nat) (n : N) :
(w <= String.length (py_format_0d w n))%nat.
Proof.
unfold py_format_0d. rewrite string_app_length, zeros_length. lia.
Qed.

Lemma py_format_02d_digits (n : N) :
(n < 100)%N ->
py_format_0d 2 n = String (digit (n / 10)) (String (digit (n mod 10)) "").
Proof.
intros Hn.
assert (Hall : forallb (fun i =>
          String.eqb (py_format_0d 2 (N.of_nat i))
            (String (digit (N.of_nat i / 10))
               (String (digit (N.of_nat i mod 10)) "")))
          (seq 0 100) = true) by (vm_compute; reflexivity).
rewrite forallb_forall in Hall.
specialize (Hall (N.to_nat n)). rewrite N2Nat.id in Hall.
apply String.eqb_eq, Hall, in_seq. lia.
Qed.

Lemma py_format_03d_digits (n : N) :
(n < 1000)%N ->
py_format_0d 3 n =
  String (digit (n / 100))
    (String (digit (n / 10 mod 10)) (String (digit (n mod 10)) "")).
Proof.
intros Hn.
assert (Hall : forallb (fun i =>
          String.eqb (py_format_0d 3 (N.of_nat i))
            (String (digit (N.of_nat i / 100))
               (String (digit (N.of_nat i / 10 mod 10))
                  (String (digit (N.of_nat i mod 10)) ""))))
          (seq 0 1000) = true) by (vm_compute; reflexivity).
rewrite forallb_forall in Hall.
specialize (Hall (N.to_nat n)). rewrite N2Nat.id in Hall.
apply String.eqb_eq, Hall, in_seq. lia.
Qed.

Lemma dem_s3_path_pattern (lat long : Z) :
dem_s3_path lat long =
  tile_name (lat_dir lat) (py_format_0d 2 (Z.to_N (Z.abs lat)))
            (long_dir long) (py_format_0d 3 (Z.to_N (Z.abs long)))
  +:+ "/" +:+
  tile_name (lat_dir lat) (py_format_0d 2 (Z.to_N (Z.abs lat)))
            (long_dir long) (py_format_0d 3 (Z.to_N (Z.abs long)))
  +:+ ".tif".
Proof.
unfold dem_s3_path, tile_name.
rewrite !string_app_assoc. reflexivity.
Qed.

Lemma elem_of_dem_s3_paths (lats longs : list Z) (p : string) :
p ∈ dem_s3_paths lats longs <->
exists lat long, In lat lats /\ In long longs /\ p = dem_s3_path lat long.
Proof.
unfold dem_s3_paths, dem_s3_paths_raw.
rewrite elem_of_elements, elem_of_list_to_set, list_elem_of_In, in_flat_map.
split.
- intros (lat & Hlat & Hin). apply in_map_iff in Hin as (long & <- & Hlong).
  eauto.
- intros (lat & long & Hlat & Hlong & ->). exists lat. split; [assumption |].
  apply in_map_iff. eauto.
Qed.

End Formatting.

(** C9: the path generated for a band pair is
    [name/name.tif] with [name = Copernicus_DSM_COG_10_{lat_dir}{LL}_00_{lon_dir}{LLL}_00_DEM];
    the letters are N for [lat >= 0] and S otherwise, E for [long >= 0] and
    W otherwise; the latitude field is the decimal rendering of [|lat|]
    filled with zeros to at least two characters (exactly the two digits
    below 100), the longitude field that of [|long|] to at least three
    (exactly the three digits below 1000); the generated list has no
    duplicates and holds exactly the paths of the band pairs. *)
Theorem dem_s3_path_naming_rule (lats longs : list Z) (lat long : Z) :
  let lat_letter := if decide (0 <= lat) then "N" else "S" in
  let long_letter := if decide (0 <= long) then "E" else "W" in
  let lat_field := py_format_0d 2 (Z.to_N (Z.abs lat)) in
  let long_field := py_format_0d 3 (Z.to_N (Z.abs long)) in
  let name := tile_name lat_letter lat_field long_letter long_field in
  dem_s3_path lat long = name +:+ "/" +:+ name +:+ ".tif" /\
  decimal_value lat_field = Some (Z.to_N (Z.abs lat)) /\
  (2 <= String.length lat_field)%nat /\
  (Z.abs lat < 100 ->
   lat_field = String (digit (Z.to_N (Z.abs lat) / 10))
                 (String (digit (Z.to_N (Z.abs lat) mod 10)) "")) /\
  decimal_value long_field = Some (Z.to_N (Z.abs long)) /\
  (3 <= String.length long_field)%nat /\
  (Z.abs long < 1000 ->
   long_field = String (digit (Z.to_N (Z.abs long) / 100))
                  (String (digit (Z.to_N (Z.abs long) / 10 mod 10))
                     (String (digit (Z.to_N (Z.abs long) mod 10)) ""))) /\
  NoDup (dem_s3_paths lats longs) /\
  (forall p, p ∈ dem_s3_paths lats longs <->
             exists lat long,
               In lat lats /\ In long longs /\ p = dem_s3_path lat long).
Proof.
  cbn zeta. split; [| repeat split].
  - rewrite dem_s3_path_pattern. unfold lat_dir, long_dir.
    destruct (Z.leb_spec 0 lat), (Z.leb_spec 0 long);
      repeat case_decide; try lia; reflexivity.
  - apply py_format_0d_value.
  - apply py_format_0d_min_width.
  - intros H. apply py_format_02d_digits. lia.
  - apply py_format_0d_value.
  - apply py_format_0d_min_width.
  - intros H. apply py_format_03d_digits. lia.
  - apply NoDup_elements.
  - apply elem_of_dem_s3_paths.
  - apply elem_of_dem_s3_paths.
Qed.

Lemma dem_s3_path_naming_rule_witness :
  dem_s3_path (-17) 130 =
    "Copernicus_DSM_COG_10_S17_00_E130_00_DEM/Copernicus_DSM_COG_10_S17_00_E130_00_DEM.tif" /\
  py_format_0d 2 17 = "17" /\ py_format_0d 3 130 = "130".
Proof.
  destruct (dem_s3_path_naming_rule [] [] (-17) 130)
    as (Hpath & _ & _ & Hlat & _ & _ & Hlong & _).
  split; [exact Hpath |]. split; [apply Hlat | apply Hlong]; reflexivity.
Defined.

(** ** The download loop *)

Section TileIdentifiers.

Lemma has_slash_zeros (k : nat) : has_char "/" (zeros k) = false.
Proof. induction k; [reflexivity | exact IHk]. Qed.

Lemma has_slash_string_of_uint (d : Decimal.uint) :
has_char "/" (NilEmpty.string_of_uint d) = false.
Proof. induction d; [reflexivity | exact IHd ..]. Qed.

Lemma has_slash_py_format_0d (w : nat) (n : N) :
has_char "/" (py_format_0d w n) = false.
Proof.
unfold py_format_0d, py_str, NilZero.string_of_uint.
rewrite has_char_app, has_slash_zeros.
cbn [orb].
destruct (N.to_uint n) as [| u | u | u | u | u | u | u | u | u | u] eqn:E;
  [reflexivity | ..].
all: match goal with
     | |- has_char _ (NilEmpty.string_of_uint ?d) = false =>
         exact (has_slash_string_of_uint d)
     end.
Qed.

Lemma has_slash_tile_name (lat long : Z) :
has_char "/"
  (tile_name (lat_dir lat) (py_format_0d 2 (Z.to_N (Z.abs lat)))
             (long_dir long) (py_format_0d 3 (Z.to_N (Z.abs long)))) = false.
Proof.
unfold tile_name, lat_dir, long_dir.
rewrite !has_char_app, !has_slash_py_format_0d.
destruct (0 <=? lat), (0 <=? long); reflexivity.
Qed.

Lemma starts_with_tile_name (lat long : Z) (suffix : string) :
starts_with "/"
  (tile_name (lat_dir lat) (py_format_0d 2 (Z.to_N (Z.abs lat)))
             (long_dir long) (py_format_0d 3 (Z.to_N (Z.abs long)))
   +:+ suffix) = false.
Proof. reflexivity. Qed.

Variable folder : string.

(** The local file of a tile identifier is [folder/name.tif]. *)
Lemma local_path_tile (lat long : Z) :
local_path folder (dem_s3_path lat long) =
  Some (os_path_join folder
          (tile_name (lat_dir lat) (py_format_0d 2 (Z.to_N (Z.abs lat)))
                     (long_dir long) (py_format_0d 3 (Z.to_N (Z.abs long)))
           +:+ ".tif")).
Proof.
unfold local_path. rewrite dem_s3_path_pattern.
change ("/" +:+ ?x) with (String "/" x).
rewrite split_on_app.
- rewrite split_on_absent; [reflexivity |].
  rewrite has_char_app, has_slash_tile_name. reflexivity.
- apply has_slash_tile_name.
Qed.

Lemma os_path_join_inj (a b : string) :
starts_with "/" a = false -> starts_with "/" b = false ->
os_path_join folder a = os_path_join folder b -> a = b.
Proof.
unfold os_path_join. intros -> ->.
destruct (String.eqb folder "" || ends_with "/" folder).
- apply String.app_inj.
- intros H. apply String.app_inj in H. apply (String.app_inj "/") in H.
  exact H.
Qed.

Lemma local_path_tile_inj (p q : string) (d : string) :
tile_identifier p -> tile_identifier q ->
local_path folder p = Some d -> local_path folder q = Some d -> p = q.
Proof.
intros (lat & long & ->) (lat' & long' & ->).
rewrite !local_path_tile. intros [= <-] [= H].
apply os_path_join_inj in H; try apply starts_with_tile_name.
apply string_app_inv_tail in H.
rewrite !dem_s3_path_pattern. rewrite H. reflexivity.
Qed.

(** Distinct tile identifiers have distinct local files. *)
Lemma NoDup_local_paths (ids : list string) :
NoDup ids -> (forall p, p ∈ ids -> tile_identifier p) ->
NoDup (omap (local_path folder) ids).
Proof.
induction ids as [| p ids IH]; intros Hnd Hall; [constructor |].
apply NoDup_cons in Hnd as [Hp Hnd].
assert (Htp : tile_identifier p) by (apply Hall; left).
cbn [omap list_omap].
destruct (local_path folder p) as [d |] eqn:Hd.
- apply NoDup_cons. split.
  + intros Hin. apply list_elem_of_omap in Hin as (q & Hq & Hqd).
    assert (p = q) as <-; [| contradiction].
    eapply local_path_tile_inj; eauto. apply Hall. right. exact Hq.
  + apply IH; [assumption |]. intros q Hq. apply Hall. right. exact Hq.
- apply IH; [assumption |]. intros q Hq. apply Hall. right. exact Hq.
Qed.

End TileIdentifiers.

Section FetchLoop.

Variable bucket : gset string.
Variable folder : string.
Variable disk : gset string.

(** One turn of the loop never raises; it prints one line, and appends
    the local path exactly when the identifier resolves. *)
Lemma fetch_one_step (p : string) (w : World) :
  (forall d, local_path folder p = Some d -> d ∈ files w <-> d ∈ disk) ->
  exists w',
    fetch_one bucket folder p w = (Ok tt, w') /\
    dems_to_merge w' =
      dems_to_merge w ++ option_list (resolved_path bucket folder disk p) /\
    stdout w' = stdout w ++ [line_of bucket folder disk p] /\
    requests w' = requests w ++ request_of folder disk p /\
    files w ⊆ files w' /\
    (forall d, d ∈ files w' -> d ∈ files w \/ local_path folder p = Some d).
Proof.
  intros Hinv.
  unfold fetch_one, try_except, resolved_path, line_of, request_of,
    local_path in *.
  unfold mbind, M_bind, bind, index.
  destruct (split_on "/" p !! 1%nat) as [name |] eqn:Hname;
    cbn [fmap option_fmap option_map] in *.
  - specialize (Hinv _ eq_refl).
    unfold path_exists, mret, M_ret, ret. cbn.
    destruct (bool_decide (os_path_join folder name ∈ files w)) eqn:Hex.
    + apply bool_decide_eq_true in Hex.
      rewrite (bool_decide_eq_true_2 (os_path_join folder name ∈ disk))
        by tauto.
      rewrite bool_decide_eq_true_2 by tauto.
      cbn. eexists. repeat split; try reflexivity; cbn; auto.
      rewrite app_nil_r. reflexivity.
    + apply bool_decide_eq_false in Hex.
      rewrite (bool_decide_eq_false_2 (os_path_join folder name ∈ disk))
        by tauto.
      cbn. unfold download_file. cbn.
      destruct (bool_decide (p ∈ bucket)) eqn:Hb.
      * apply bool_decide_eq_true in Hb.
        rewrite bool_decide_eq_true_2 by tauto.
        cbn. eexists. repeat split; try reflexivity; cbn.
        -- apply union_subseteq_r.
        -- intros d Hd. apply elem_of_union in Hd as [Hd | Hd]; [| tauto].
           apply elem_of_singleton in Hd. subst. tauto.
      * apply bool_decide_eq_false in Hb.
        rewrite bool_decide_eq_false_2 by tauto.
        cbn. eexists. repeat split; try reflexivity; cbn; auto.
        rewrite app_nil_r. reflexivity.
  - cbn. eexists. repeat split; try reflexivity; cbn; auto.
    all: rewrite app_nil_r; reflexivity.
Qed.

(** The loop, from any world that agrees with [disk] on the local files
    of the identifiers still to come. *)
Lemma fetch_all_from (ids : list string) : forall (w : World),
  NoDup (omap (local_path folder) ids) ->
  (forall p d, p ∈ ids -> local_path folder p = Some d ->
               d ∈ files w <-> d ∈ disk) ->
  exists w',
    fetch_all bucket folder ids w = (Ok tt, w') /\
    dems_to_merge w' =
      dems_to_merge w ++ omap (resolved_path bucket folder disk) ids /\
    stdout w' = stdout w ++ List.map (line_of bucket folder disk) ids /\
    requests w' = requests w ++ flat_map (request_of folder disk) ids.
Proof.
  induction ids as [| p ids IH]; intros w Hnd Hinv.
  - exists w. cbn. rewrite !app_nil_r. auto.
  - destruct (fetch_one_step p w)
      as (w1 & Hrun & Hdems & Hout & Hreq & Hsub & Hnew).
    { intros d Hd. apply (Hinv p d); [left | assumption]. }
    destruct (IH w1) as (w2 & Hrun2 & Hdems2 & Hout2 & Hreq2).
    { cbn in Hnd. destruct (local_path folder p); [| assumption].
      apply NoDup_cons in Hnd. tauto. }
    { intros q d Hq Hd. rewrite <- (Hinv q d) by (try right; assumption).
      split; [| apply Hsub].
      intros Hin. apply Hnew in Hin as [Hin | Hp]; [assumption |].
      exfalso. cbn in Hnd. rewrite Hp in Hnd.
      apply NoDup_cons in Hnd as [Hnotin _].
      apply Hnotin. apply list_elem_of_omap. eauto. }
    exists w2. split.
    { unfold fetch_all in *. cbn [for_each]. unfold mbind, M_bind, bind.
      rewrite Hrun. exact Hrun2. }
    rewrite Hdems2, Hout2, Hreq2, Hdems, Hout, Hreq.
    cbn [omap list_omap List.map flat_map].
    rewrite <- !app_assoc.
    destruct (resolved_path bucket folder disk p); auto.
Qed.

Lemma resolved_path_Some (p d : string) :
  resolved_path bucket folder disk p = Some d <->
  local_path folder p = Some d /\ (d ∈ disk \/ p ∈ bucket).
Proof.
  unfold resolved_path. destruct (local_path folder p) as [d' |].
  - case_bool_decide; split.
    + intros [= <-]. auto.
    + intros [[= <-] _]. reflexivity.
    + discriminate.
    + intros [[= <-] H']. contradiction.
  - split; [discriminate | intros [[=] _]].
Qed.

Lemma line_of_unresolved (p : string) :
  ~ resolves bucket folder disk p ->
  line_of bucket folder disk p = "not found : " +:+ p.
Proof.
  unfold resolves, line_of. intros Hno.
  destruct (local_path folder p) as [d |]; [| reflexivity].
  repeat case_bool_decide; try reflexivity; exfalso; apply Hno; eauto.
Qed.

End FetchLoop.

(** The loop on any list of strings, from any world. *)

Section FetchAnyIds.

Variable bucket : gset string.
Variable folder : string.

(** One turn of the loop on any string and from any world. *)
Lemma fetch_one_any (p : string) (w : World) :
  exists w',
    fetch_one bucket folder p w = (Ok tt, w') /\
    length (stdout w') = S (length (stdout w)) /\
    files w ⊆ files w' /\
    (forall d, d ∈ files w' ->
               d ∈ files w \/ (p ∈ bucket /\ local_path folder p = Some d)) /\
    (forall d, d ∈ dems_to_merge w' ->
               d ∈ dems_to_merge w \/ (d ∈ files w' /\ local_path folder p = Some d)) /\
    (forall key dest, (key, dest) ∈ requests w' ->
               (key, dest) ∈ requests w \/
               (key = p /\ local_path folder p = Some dest /\ dest ∉ files w)).
Proof.
  unfold fetch_one, try_except, local_path.
  unfold mbind, M_bind, bind, index.
  destruct (split_on "/" p !! 1%nat) as [name |] eqn:Hname;
    cbn [fmap option_fmap option_map].
  - unfold path_exists, mret, M_ret, ret. cbn.
    destruct (bool_decide (os_path_join folder name ∈ files w)) eqn:Hex.
    + apply bool_decide_eq_true in Hex. cbn. eexists.
      split; [reflexivity |]. cbn. rewrite length_app. cbn.
      repeat split; try lia; auto.
      intros d Hd. apply elem_of_app in Hd as [Hd | Hd]; [auto |].
      apply list_elem_of_singleton in Hd. subst. auto.
    + apply bool_decide_eq_false in Hex. cbn. unfold download_file. cbn.
      destruct (bool_decide (p ∈ bucket)) eqn:Hb.
      * apply bool_decide_eq_true in Hb. cbn. eexists.
        split; [reflexivity |]. cbn. rewrite length_app. cbn.
        repeat split; try lia.
        -- apply union_subseteq_r.
        -- intros d Hd. apply elem_of_union in Hd as [Hd | Hd]; [| auto].
           apply elem_of_singleton in Hd. subst. auto.
        -- intros d Hd. apply elem_of_app in Hd as [Hd | Hd]; [auto |].
           apply list_elem_of_singleton in Hd. subst. right.
           split; [| reflexivity]. apply elem_of_union_l, elem_of_singleton.
           reflexivity.
        -- intros key dest Hd. apply elem_of_app in Hd as [Hd | Hd]; [auto |].
           apply list_elem_of_singleton in Hd. injection Hd as -> ->. auto.
      * apply bool_decide_eq_false in Hb. cbn. eexists.
        split; [reflexivity |]. cbn. rewrite length_app. cbn.
        repeat split; try lia; auto.
        intros key dest Hd. apply elem_of_app in Hd as [Hd | Hd]; [auto |].
        apply list_elem_of_singleton in Hd. injection Hd as -> ->. auto.
  - cbn. eexists. split; [reflexivity |]. cbn. rewrite length_app. cbn.
    repeat split; try lia; auto.
Qed.

(** The loop on any list of strings and from any world. *)
Lemma fetch_all_any (ids : list string) : forall (w : World),
  exists w',
    fetch_all bucket folder ids w = (Ok tt, w') /\
    length (stdout w') = (length (stdout w) + length ids)%nat /\
    files w ⊆ files w' /\
    (forall d, d ∈ files w' ->
               d ∈ files w \/
               exists p, p ∈ ids /\ p ∈ bucket /\ local_path folder p = Some d) /\
    (forall d, d ∈ dems_to_merge w' ->
               d ∈ dems_to_merge w \/
               (d ∈ files w' /\ exists p, p ∈ ids /\ local_path folder p = Some d)) /\
    (forall key dest, (key, dest) ∈ requests w' ->
               (key, dest) ∈ requests w \/
               (key ∈ ids /\ local_path folder key = Some dest /\
                dest ∉ files w)).
Proof.
  induction ids as [| p ids IH]; intros w.
  - exists w. cbn. repeat split; try lia; auto.
  - destruct (fetch_one_any p w) as (w1 & Hrun & Hout & Hsub & Hnew & Hdems & Hreq).
    destruct (IH w1) as (w2 & Hrun2 & Hout2 & Hsub2 & Hnew2 & Hdems2 & Hreq2).
    exists w2. split.
    { unfold fetch_all in *. cbn [for_each]. unfold mbind, M_bind, bind.
      rewrite Hrun. exact Hrun2. }
    split; [cbn [length]; lia |].
    split; [etransitivity; eassumption |].
    split; [| split].
    + intros d Hd. apply Hnew2 in Hd as [Hd | (q & Hq & Hb & Hl)].
      * apply Hnew in Hd as [Hd | [Hb Hl]]; [auto |].
        right. exists p. split; [left | auto].
      * right. exists q. split; [right; exact Hq | auto].
    + intros d Hd. apply Hdems2 in Hd as [Hd | (Hf & q & Hq & Hl)].
      * apply Hdems in Hd as [Hd | [Hf Hl]]; [auto |].
        right. split; [apply Hsub2, Hf |]. exists p. split; [left | exact Hl].
      * right. split; [exact Hf |]. exists q. split; [right; exact Hq | exact Hl].
    + intros key dest Hd. apply Hreq2 in Hd as [Hd | (Hk & Hl & Hn)].
      * apply Hreq in Hd as [Hd | (-> & Hl & Hn)]; [auto |].
        right. split; [left | auto].
      * right. split; [right; exact Hk |]. split; [exact Hl |].
        intros Hin. apply Hn, Hsub, Hin.
Qed.

End FetchAnyIds.

(** C8: for a duplicate-free list of tile identifiers, the download loop
    runs to its end without raising; [dems_to_merge] holds, in order, one
    local path for each identifier whose file was on the disk or whose
    object is in the bucket, and nothing else; an identifier that does not
    resolve adds no path and is reported by a "not found" line; no request
    goes to the bucket for an identifier whose file was on the disk.  Every
    path of [dems_to_merge] is a file on the disk afterwards; the files
    afterwards are those from before and the local files of the
    identifiers the bucket holds; every identifier whose file was not on
    the disk is requested from the bucket, and nothing else is. *)
Theorem fetch_all_resolves
    (bucket : gset string) (folder : string) (disk : gset string)
    (ids : list string) :
  NoDup ids -> (forall p, p ∈ ids -> tile_identifier p) ->
  exists w,
    fetch_all bucket folder ids (initial_world disk) = (Ok tt, w) /\
    dems_to_merge w = omap (resolved_path bucket folder disk) ids /\
    (forall p d, resolved_path bucket folder disk p = Some d <->
                 local_path folder p = Some d /\ (d ∈ disk \/ p ∈ bucket)) /\
    (forall p, p ∈ ids -> ~ resolves bucket folder disk p ->
               resolved_path bucket folder disk p = None /\
               ("not found : " +:+ p) ∈ stdout w) /\
    (forall p d dest, p ∈ ids -> local_path folder p = Some d -> d ∈ disk ->
                      (p, dest) ∉ requests w) /\
    (forall d, d ∈ dems_to_merge w -> d ∈ files w) /\
    (forall d, d ∈ files w <->
               d ∈ disk \/
               exists p, p ∈ ids /\ p ∈ bucket /\ local_path folder p = Some d) /\
    (forall p d, p ∈ ids -> local_path folder p = Some d -> d ∉ disk ->
                 (p, d) ∈ requests w) /\
    (forall key dest, (key, dest) ∈ requests w ->
                 key ∈ ids /\ local_path folder key = Some dest /\
                 dest ∉ disk).
Proof.
  intros Hnd Hids.
  destruct (fetch_all_from bucket folder disk ids (initial_world disk))
    as (w & Hrun & Hdems & Hout & Hreq).
  { apply NoDup_local_paths; assumption. }
  { intros p d _ _. reflexivity. }
  destruct (fetch_all_any bucket folder ids (initial_world disk))
    as (w' & Hrun' & _ & Hsub & Hnew & Hin & Hreq').
  rewrite Hrun in Hrun'. injection Hrun' as <-.
  cbn [initial_world dems_to_merge stdout requests files app] in *.
  assert (Hfiles : forall d, d ∈ dems_to_merge w -> d ∈ files w).
  { intros d Hd. apply Hin in Hd as [Hd | [Hf _]]; [| exact Hf].
    apply elem_of_nil in Hd. destruct Hd. }
  exists w. split; [exact Hrun |]. split; [exact Hdems |].
  split; [apply resolved_path_Some |].
  split; [| split; [| split; [exact Hfiles |]]].
  - intros p Hp Hno. split.
    + destruct (resolved_path bucket folder disk p) as [d |] eqn:E;
        [| reflexivity].
      apply resolved_path_Some in E. exfalso. apply Hno. exists d. exact E.
    + rewrite Hout, <- (line_of_unresolved bucket folder disk p Hno).
      apply list_elem_of_In, in_map, list_elem_of_In, Hp.
  - intros p d dest Hp Hd Hdisk Hin'. rewrite Hreq in Hin'.
    apply list_elem_of_In, in_flat_map in Hin' as (q & _ & Hq).
    unfold request_of in Hq. destruct (local_path folder q) as [dq |] eqn:Eq;
      [| destruct Hq].
    case_bool_decide; [destruct Hq |].
    destruct Hq as [[= <- <-] | []]. congruence.
  - split; [| split].
    + intros d. split.
      * intros Hd. apply Hnew in Hd as [Hd | Hd]; [left | right]; exact Hd.
      * intros [Hd | (p & Hp & Hb & Hl)]; [apply Hsub, Hd |].
        apply Hfiles. rewrite Hdems. apply list_elem_of_omap.
        exists p. split; [exact Hp |]. apply resolved_path_Some. auto.
    + intros p d Hp Hl Hd. rewrite Hreq.
      apply list_elem_of_In, in_flat_map. exists p.
      split; [apply list_elem_of_In, Hp |].
      unfold request_of. rewrite Hl.
      rewrite bool_decide_eq_false_2 by exact Hd. left. reflexivity.
    + intros key dest Hk. apply Hreq' in Hk as [Hk | Hk]; [| exact Hk].
      apply elem_of_nil in Hk. destruct Hk.
Qed.

Lemma fetch_all_resolves_witness :
  exists w,
    fetch_all bucket_nt "dem" ids_nt (initial_world disk_nt) = (Ok tt, w) /\
    dems_to_merge w =
      [ "dem/Copernicus_DSM_COG_10_S17_00_E130_00_DEM.tif";
        "dem/Copernicus_DSM_COG_10_S18_00_E130_00_DEM.tif" ].
Proof.
  destruct (fetch_all_resolves bucket_nt "dem" disk_nt ids_nt)
    as (w & Hrun & Hdems & _).
  - apply (bool_decide_unpack _). vm_compute. exact I.
  - intros p Hp. unfold ids_nt in Hp.
    repeat (apply elem_of_cons in Hp as [-> | Hp]; [eexists _, _; reflexivity |]).
    apply elem_of_nil in Hp. destruct Hp.
  - exists w. split; [exact Hrun |]. rewrite Hdems. vm_compute. reflexivity.
Defined.

(** ** The merge of the tiles *)

Section MergeFacts.

Variable nodata : Q.
Variables r c : Z.

Lemma copy_into_cases (dst : Q) (t : Tile) :
  (exists v, contributes nodata r c t v /\ copy_into nodata r c dst t = v) \/
  ((forall v, ~ contributes nodata r c t v) /\
   copy_into nodata r c dst t = dst).
Proof.
  unfold copy_into, contributes.
  destruct (tile_at t r c) as [v |].
  - destruct (Qeq_bool v nodata) eqn:E.
    + right. split; [| reflexivity]. intros v' [[= <-] H]. congruence.
    + left. exists v. auto.
  - right. split; [| reflexivity]. intros v' [H _]. discriminate.
Qed.

(** The band keeps the value of the last input that writes the pixel. *)
Lemma fold_copy_into_last (tiles : list Tile) (init : Q) :
  ((forall t v, In t tiles -> ~ contributes nodata r c t v) /\
   fold_left (copy_into nodata r c) tiles init = init) \/
  (exists pre t post v,
      tiles = pre ++ t :: post /\ contributes nodata r c t v /\
      (forall t' v', In t' post -> ~ contributes nodata r c t' v') /\
      fold_left (copy_into nodata r c) tiles init = v).
Proof.
  induction tiles as [| t tiles IH] using rev_ind.
  - left. split; [intros t v [] | reflexivity].
  - rewrite fold_left_app. cbn [fold_left].
    destruct (copy_into_cases (fold_left (copy_into nodata r c) tiles init) t)
      as [(v & Hv & ->) | (Hno & ->)].
    + right. exists tiles, t, [], v. repeat split; try apply Hv.
      intros t' v' [].
    + destruct IH
        as [(Hnone & ->) | (pre & t0 & post & v & -> & Hv & Hpost & ->)].
      * left. split; [| reflexivity].
        intros t' v' Hin. apply in_app_iff in Hin as [Hin | [<- | []]]; auto.
      * right. exists pre, t0, (post ++ [t]), v. repeat split; try apply Hv.
        -- rewrite <- app_assoc. reflexivity.
        -- intros t' v' Hin.
           apply in_app_iff in Hin as [Hin | [<- | []]]; auto.
Qed.

End MergeFacts.

Lemma fold_min_le (l : list Z) (x : Z) :
  fold_left Z.min l x <= x /\ (forall y, In y l -> fold_left Z.min l x <= y) /\
  In (fold_left Z.min l x) (x :: l).
Proof.
  revert x. induction l as [| a l IH]; intros x; cbn [fold_left].
  - repeat split; [lia | intros y [] | left; reflexivity].
  - destruct (IH (Z.min x a)) as (H1 & H2 & H3). repeat split.
    + lia.
    + intros y [<- | Hy]; [lia | auto].
    + destruct H3 as [H3 | H3]; [| right; right; exact H3].
      rewrite <- H3. destruct (Z.min_spec x a) as [[_ ->] | [_ ->]];
        [left | right; left]; reflexivity.
Qed.

Lemma fold_max_ge (l : list Z) (x : Z) :
  x <= fold_left Z.max l x /\ (forall y, In y l -> y <= fold_left Z.max l x) /\
  In (fold_left Z.max l x) (x :: l).
Proof.
  revert x. induction l as [| a l IH]; intros x; cbn [fold_left].
  - repeat split; [lia | intros y [] | left; reflexivity].
  - destruct (IH (Z.max x a)) as (H1 & H2 & H3). repeat split.
    + lia.
    + intros y [<- | Hy]; [lia | auto].
    + destruct H3 as [H3 | H3]; [| right; right; exact H3].
      rewrite <- H3. destruct (Z.max_spec x a) as [[_ ->] | [_ ->]];
        [right; left | left]; reflexivity.
Qed.

Lemma merged_col_end (a b w h : Z) (f : Z -> Z -> Q) :
  col_end (mkTile a b (w - a) h f) = w.
Proof. unfold col_end. cbn. lia. Qed.

Lemma merged_row_end (a b w h : Z) (f : Z -> Z -> Q) :
  row_end (mkTile a b w (h - b) f) = h.
Proof. unfold row_end. cbn. lia. Qed.

(** C3, as the code has it: merging a non-empty list of tiles gives one
    raster whose window is the union of the tile windows (it contains every
    tile and each of its four sides is a side of some tile), and whose value
    at a grid pixel is the value of the last tile on the command line that
    holds the pixel with a value other than 0, or 0 when there is no such
    tile. *)
Theorem merge_dem_last_nonzero_wins (tiles : list Tile) :
  tiles <> [] ->
  exists m,
    merge_dem tiles = Some m /\
    (forall t, In t tiles -> tile_within t m) /\
    (exists t, In t tiles /\ col_off t = col_off m) /\
    (exists t, In t tiles /\ row_off t = row_off m) /\
    (exists t, In t tiles /\ col_end t = col_end m) /\
    (exists t, In t tiles /\ row_end t = row_end m) /\
    forall r c,
      ((forall t v, In t tiles -> ~ contributes 0 r c t v) /\
       px m (r - row_off m) (c - col_off m) = 0%Q) \/
      (exists pre t post v,
          tiles = pre ++ t :: post /\ contributes 0 r c t v /\
          (forall t' v', In t' post -> ~ contributes 0 r c t' v') /\
          px m (r - row_off m) (c - col_off m) = v).
Proof.
  intros Hne. destruct tiles as [| t0 rest]; [congruence |].
  unfold merge_dem, gdal_merge. eexists. split; [reflexivity |].
  destruct (fold_min_le (List.map col_off rest) (col_off t0))
    as (Hc1 & Hc2 & Hc3).
  destruct (fold_min_le (List.map row_off rest) (row_off t0))
    as (Hr1 & Hr2 & Hr3).
  destruct (fold_max_ge (List.map col_end rest) (col_end t0))
    as (He1 & He2 & He3).
  destruct (fold_max_ge (List.map row_end rest) (row_end t0))
    as (Hs1 & Hs2 & Hs3).
  change (col_off t0 :: List.map col_off rest)
    with (List.map col_off (t0 :: rest)) in Hc3.
  change (row_off t0 :: List.map row_off rest)
    with (List.map row_off (t0 :: rest)) in Hr3.
  change (col_end t0 :: List.map col_end rest)
    with (List.map col_end (t0 :: rest)) in He3.
  change (row_end t0 :: List.map row_end rest)
    with (List.map row_end (t0 :: rest)) in Hs3.
  apply in_map_iff in Hc3 as (tc & Hc3 & Hc4), Hr3 as (tr & Hr3 & Hr4),
    He3 as (te & He3 & He4), Hs3 as (ts & Hs3 & Hs4).
  split; [| split; [| split; [| split; [| split]]]].
  - intros t Hin.
    assert (Hc : fold_left Z.min (List.map col_off rest) (col_off t0)
                 <= col_off t)
      by (destruct Hin as [<- | Hin]; [exact Hc1 | apply Hc2, in_map, Hin]).
    assert (Hr : fold_left Z.min (List.map row_off rest) (row_off t0)
                 <= row_off t)
      by (destruct Hin as [<- | Hin]; [exact Hr1 | apply Hr2, in_map, Hin]).
    assert (He : col_end t
                 <= fold_left Z.max (List.map col_end rest) (col_end t0))
      by (destruct Hin as [<- | Hin]; [exact He1 | apply He2, in_map, Hin]).
    assert (Hs : row_end t
                 <= fold_left Z.max (List.map row_end rest) (row_end t0))
      by (destruct Hin as [<- | Hin]; [exact Hs1 | apply Hs2, in_map, Hin]).
    unfold tile_within. rewrite merged_col_end, merged_row_end.
    cbn [col_off row_off]. lia.
  - exists tc. split; [assumption | exact Hc3].
  - exists tr. split; [assumption | exact Hr3].
  - exists te. split; [assumption |]. rewrite merged_col_end. exact He3.
  - exists ts. split; [assumption |]. rewrite merged_row_end. exact Hs3.
  - intros r c. cbn [px row_off col_off].
    match goal with
    | |- context [merged_pixel _ _ ?a ?b] =>
        replace a with r by lia; replace b with c by lia
    end.
    apply fold_copy_into_last.
Qed.

Lemma merge_dem_last_nonzero_wins_witness :
  exists m, merge_dem [tile_5; tile_3] = Some m /\ tile_within tile_5 m.
Proof.
  destruct (merge_dem_last_nonzero_wins [tile_5; tile_3]) as (m & Hm & Hin & _).
  - discriminate.
  - exists m. split; [exact Hm |]. apply Hin. left. reflexivity.
Defined.

(** C3, as stated, fails on two tiles over the same pixel holding 5 and 3,
    in this order: both hold the pixel, the merged value is 3, not their
    maximum 5. *)
Lemma merge_dem_not_max_example :
  exists m, merge_dem [tile_5; tile_3] = Some m /\
    overlapping_values [tile_5; tile_3] 0 0 = [5%Q; 3%Q] /\
    px m 0 0 = 3%Q /\ ~ (px m 0 0 == Qmax 5 3)%Q.
Proof.
  eexists. split; [reflexivity |]. split; [reflexivity |].
  split; [reflexivity |]. vm_compute. discriminate.
Qed.

(** ** The expansion of the DEM *)

(** C10: with positive pixel sizes, the bounds [expand_raster_with_bounds]
    computes contain the old bounds on every side, whatever the requested
    bounds are: every padding is a non-negative multiple of the pixel size,
    subtracted on the left and bottom, added on the right and top. *)
Theorem expanded_bounds_cover_old
    (src : Profile) (old_bounds new_bounds : Bounds) :
  (0 < fst (res src))%Q -> (0 < snd (res src))%Q ->
  covers (expanded_bounds src old_bounds new_bounds) old_bounds.
Proof.
  intros H0 H1. unfold expanded_bounds, covers.
  destruct old_bounds as [ol ob or ot], new_bounds as [nl nb nr nt].
  destruct (res src) as [r0 r1].
  cbn [fst snd x_min y_min x_max y_max] in *.
  pose proof (pad_nonneg (nl - ol) r0 H0).
  pose proof (pad_nonneg (nr - or) r0 H0).
  pose proof (pad_nonneg (nb - ob) r1 H1).
  pose proof (pad_nonneg (nt - ot) r1 H1).
  repeat split; lra.
Qed.

Lemma expanded_bounds_cover_old_witness :
  covers (expanded_bounds dem_10x10 (bounds dem_10x10) scene_south)
         (bounds dem_10x10).
Proof.
  apply (expanded_bounds_cover_old dem_10x10 (bounds dem_10x10) scene_south).
  - reflexivity.
  - reflexivity.
Defined.

(** When the requested bounds lie outside the old bounds on every side, the
    computed bounds lie between the two, less than one pixel short of the
    requested bound on each side. *)
Lemma expanded_bounds_short_of_target
    (src : Profile) (old_bounds new_bounds : Bounds) :
  (0 < fst (res src))%Q -> (0 < snd (res src))%Q ->
  covers new_bounds old_bounds ->
  covers new_bounds (expanded_bounds src old_bounds new_bounds) /\
  (x_min (expanded_bounds src old_bounds new_bounds) - x_min new_bounds
     < fst (res src))%Q /\
  (y_min (expanded_bounds src old_bounds new_bounds) - y_min new_bounds
     < snd (res src))%Q /\
  (x_max new_bounds - x_max (expanded_bounds src old_bounds new_bounds)
     < fst (res src))%Q /\
  (y_max new_bounds - y_max (expanded_bounds src old_bounds new_bounds)
     < snd (res src))%Q.
Proof.
  intros H0 H1. unfold expanded_bounds, covers.
  destruct old_bounds as [ol ob or ot], new_bounds as [nl nb nr nt].
  destruct (res src) as [r0 r1].
  cbn [fst snd x_min y_min x_max y_max] in *.
  intros (Hl & Hb & Hr & Ht).
  destruct (pad_floor (nl - ol) r0 H0) as [L1 L2].
  destruct (pad_floor (nr - or) r0 H0) as [R1 R2].
  destruct (pad_floor (nb - ob) r1 H1) as [B1 B2].
  destruct (pad_floor (nt - ot) r1 H1) as [T1 T2].
  set (kl := py_int (Qabs (nl - ol) / r0)) in *.
  set (kr := py_int (Qabs (nr - or) / r0)) in *.
  set (kb := py_int (Qabs (nb - ob) / r1)) in *.
  set (kt := py_int (Qabs (nt - ot) / r1)) in *.
  rewrite (Qabs_neg (nl - ol)) in L1, L2 by lra.
  rewrite (Qabs_pos (nr - or)) in R1, R2 by lra.
  rewrite (Qabs_neg (nb - ob)) in B1, B2 by lra.
  rewrite (Qabs_pos (nt - ot)) in T1, T2 by lra.
  repeat split; lra.
Qed.

(** Expanding the computed bounds again toward the same requested bounds
    changes nothing, when those lie outside the old bounds on every side. *)
Lemma expanded_bounds_stable
    (src : Profile) (old_bounds new_bounds : Bounds) :
  (0 < fst (res src))%Q -> (0 < snd (res src))%Q ->
  covers new_bounds old_bounds ->
  bounds_eq
    (expanded_bounds src (expanded_bounds src old_bounds new_bounds) new_bounds)
    (expanded_bounds src old_bounds new_bounds).
Proof.
  intros H0 H1 Hc.
  destruct (expanded_bounds_short_of_target src old_bounds new_bounds H0 H1 Hc)
    as ((Cl & Cb & Cr & Ct) & Sl & Sb & Sr & St).
  revert Cl Cb Cr Ct Sl Sb Sr St.
  generalize (expanded_bounds src old_bounds new_bounds). intros [el eb er et].
  destruct new_bounds as [nl nb nr nt]. unfold expanded_bounds, bounds_eq.
  destruct (res src) as [r0 r1].
  cbn [fst snd x_min y_min x_max y_max] in *. intros.
  rewrite (pad_zero (nl - el) r0), (pad_zero (nr - er) r0),
    (pad_zero (nb - eb) r1), (pad_zero (nt - et) r1); try assumption.
  - repeat split; ring.
  - rewrite Qabs_pos; lra.
  - rewrite Qabs_neg; lra.
  - rewrite Qabs_pos; lra.
  - rewrite Qabs_neg; lra.
Qed.

(** With positive pixel sizes and a non-negative shape, the raster that
    [expand_raster_with_bounds] writes has the bounds it computed: the
    paddings are whole pixels, so the merge of the padded grid with the
    source neither rounds nor moves them. *)
Lemma expand_output_bounds (src : Profile) (new_bounds : Bounds) :
  (0 < af_a (transform src))%Q -> (af_e (transform src) < 0)%Q ->
  0 <= width src -> 0 <= height src ->
  bounds_eq (bounds (expand_raster_with_bounds src (bounds src) new_bounds))
            (expanded_bounds src (bounds src) new_bounds).
Proof.
  intros Ha He HW HH.
  destruct src as [W H [a c e f] nd]. destruct new_bounds as [nl nb nr nt].
  cbn [transform af_a af_e width height] in *.
  unfold expand_raster_with_bounds, expanded_bounds, bounds, res, array_bounds.
  cbn [transform af_a af_e af_c af_f width height].
  set (kl := py_int (Qabs (nl - c) / a)).
  set (kr := py_int (Qabs (nr - (c + a * inject_Z W)) / a)).
  set (kb := py_int (Qabs (nb - (f + e * inject_Z H)) / - e)).
  set (kt := py_int (Qabs (nt - f) / - e)).
  assert (Hkl : 0 <= kl).
  { apply py_int_nonneg, Qle_shift_div_l; [assumption |].
    rewrite Qmult_0_l. apply Qabs_nonneg. }
  assert (Hkr : 0 <= kr).
  { apply py_int_nonneg, Qle_shift_div_l; [assumption |].
    rewrite Qmult_0_l. apply Qabs_nonneg. }
  assert (Hkb : 0 <= kb).
  { apply py_int_nonneg, Qle_shift_div_l; [lra |].
    rewrite Qmult_0_l. apply Qabs_nonneg. }
  assert (Hkt : 0 <= kt).
  { apply py_int_nonneg, Qle_shift_div_l; [lra |].
    rewrite Qmult_0_l. apply Qabs_nonneg. }
  assert (Hw : py_int ((c + a * inject_Z W + inject_Z kr * a -
                         (c - inject_Z kl * a)) / a) = W + kr + kl).
  { apply py_int_inject_Z; [lia |]. rewrite !inject_Z_plus. field. lra. }
  assert (Hh : py_int ((f + inject_Z kt * - e -
                         (f + e * inject_Z H - inject_Z kb * - e)) / - e)
               = H + kt + kb).
  { apply py_int_inject_Z; [lia |]. rewrite !inject_Z_plus. field. lra. }
  rewrite Hw, Hh. clear Hw Hh.
  unfold merge, bounds, array_bounds, res, from_origin.
  cbn [transform af_a af_e af_c af_f width height x_min y_min x_max y_max nodata].
  assert (Pl : (0 <= inject_Z kl * a)%Q)
    by (apply Qmult_le_0_compat; [change 0%Q with (inject_Z 0); rewrite <- Zle_Qle; lia | lra]).
  assert (Pr : (0 <= inject_Z kr * a)%Q)
    by (apply Qmult_le_0_compat; [change 0%Q with (inject_Z 0); rewrite <- Zle_Qle; lia | lra]).
  assert (Pb : (0 <= inject_Z kb * - e)%Q)
    by (apply Qmult_le_0_compat; [change 0%Q with (inject_Z 0); rewrite <- Zle_Qle; lia | lra]).
  assert (Pt : (0 <= inject_Z kt * - e)%Q)
    by (apply Qmult_le_0_compat; [change 0%Q with (inject_Z 0); rewrite <- Zle_Qle; lia | lra]).
  set (NL := (c - inject_Z kl * a)%Q) in *.
  set (NT := (f + inject_Z kt * - e)%Q) in *.
  set (W' := W + kr + kl) in *. set (H' := H + kt + kb) in *.
  assert (Ew : (Qmin NL c == NL)%Q) by (apply Q.min_l; unfold NL; lra).
  assert (En : (Qmax NT f == NT)%Q) by (apply Q.max_l; unfold NT; lra).
  assert (Ee : (Qmax (NL + a * inject_Z W') (c + a * inject_Z W)
                == c + a * inject_Z W + inject_Z kr * a)%Q).
  { rewrite Q.max_l.
    - unfold NL, W'. rewrite !inject_Z_plus. ring.
    - unfold NL, W'. rewrite !inject_Z_plus. lra. }
  assert (Es : (Qmin (NT + - - e * inject_Z H') (f + e * inject_Z H)
                == f + e * inject_Z H - inject_Z kb * - e)%Q).
  { rewrite Q.min_l.
    - unfold NT, H'. rewrite !inject_Z_plus. ring.
    - unfold NT, H'. rewrite !inject_Z_plus. lra. }
  assert (Hw : py_round ((Qmax (NL + a * inject_Z W') (c + a * inject_Z W)
                          - Qmin NL c) / a) = W').
  { apply py_round_inject_Z. rewrite Ee, Ew. unfold NL, W'.
    rewrite !inject_Z_plus. field. lra. }
  assert (Hh : py_round ((Qmax NT f
                          - Qmin (NT + - - e * inject_Z H') (f + e * inject_Z H))
                         / - - - e) = H').
  { apply py_round_inject_Z. rewrite En, Es. unfold NT, H'.
    rewrite !inject_Z_plus. field. lra. }
  rewrite Hw, Hh. unfold bounds_eq.
  cbn [x_min y_min x_max y_max].
  rewrite Ew, En. unfold NL, NT, W', H'. rewrite !inject_Z_plus.
  repeat split; ring.
Qed.

(** When the DEM contains the scene bounds properly, the cell leaves it as
    it is. *)
Lemma ensure_coverage_contained (dem : Profile) (scene_bounds : Bounds) :
  contains_properly (bounds dem) scene_bounds = true ->
  ensure_coverage dem scene_bounds = dem.
Proof.
  unfold ensure_coverage, bounds. intros ->. reflexivity.
Qed.

(** C1 fails on the code: a 10 x 10 DEM of unit pixels over
    [0, 10] x [0, 10] and scene bounds (-1.5, -1.5, 11.5, 11.5).  The DEM
    does not contain the scene, so it is expanded; each padding is
    [int(1.5 / 1) = 1] pixel, the output spans (-1, -1, 11, 11) and does not
    contain the scene bounds. *)
Lemma expand_falls_short_example :
  contains_properly (bounds dem_10x10) scene_beyond = false /\
  bounds_eq (bounds (ensure_coverage dem_10x10 scene_beyond))
            (mkBounds (-1) (-1) 11 11) /\
  ~ covers (bounds (ensure_coverage dem_10x10 scene_beyond)) scene_beyond.
Proof.
  split; [reflexivity |]. split.
  - vm_compute. repeat split; reflexivity.
  - intros (H & _). vm_compute in H. apply H. reflexivity.
Qed.

(** C7 fails on the code: the same DEM and scene bounds (2.5, -1, 5, 5).
    The first pass pads by the distance to each scene bound, inside or
    outside, and gives (-2, -1, 15, 15); the scene bounds touch its southern
    edge, so a second pass runs and gives (-6, -1, 25, 25). *)
Lemma expand_twice_differs_example :
  bounds_eq (bounds (ensure_coverage dem_10x10 scene_south))
            (mkBounds (-2) (-1) 15 15) /\
  bounds_eq (bounds (ensure_coverage (ensure_coverage dem_10x10 scene_south)
                                     scene_south))
            (mkBounds (-6) (-1) 25 25) /\
  ~ bounds_eq (bounds (ensure_coverage (ensure_coverage dem_10x10 scene_south)
                                       scene_south))
              (bounds (ensure_coverage dem_10x10 scene_south)).
Proof.
  split; [vm_compute; repeat split; reflexivity |].
  split; [vm_compute; repeat split; reflexivity |].
  intros (H & _). vm_compute in H. discriminate.
Qed.

(** * Further properties *)

(** ** The download loop: identifiers without a slash, and a second run *)

(** X7: an identifier without a slash fails inside the [try] when its second
    component is taken: the turn prints "not found", requests nothing from
    the bucket, and changes neither the folder nor the list to merge, even
    when the bucket holds an object of that name. *)
Theorem fetch_one_without_slash
    (bucket : gset string) (folder : string) (p : string) (w : World) :
  has_char "/" p = false ->
  fetch_one bucket folder p w =
    (Ok tt, mkWorld (files w) (requests w)
                    (stdout w ++ ["not found : " +:+ p]) (dems_to_merge w)).
Proof.
  intros Hp. unfold fetch_one, try_except.
  unfold mbind, M_bind, bind, index.
  rewrite (split_on_absent "/" p Hp). cbn. reflexivity.
Qed.

Lemma fetch_one_without_slash_witness :
  fetch_one {[ "tile" ]} "dem" "tile" (initial_world ∅) =
    (Ok tt, mkWorld ∅ [] ["not found : tile"] []).
Proof.
  apply (fetch_one_without_slash {[ "tile" ]} "dem" "tile" (initial_world ∅)).
  reflexivity.
Defined.

(** X8: running the download loop a second time on the folder the first run
    left gives the same list to merge and the same files; the only requests
    of the second run are for identifiers the bucket does not hold. *)
Theorem fetch_all_second_run
    (bucket : gset string) (folder : string) (disk : gset string)
    (ids : list string) :
  NoDup ids -> (forall p, p ∈ ids -> tile_identifier p) ->
  exists w1 w2,
    fetch_all bucket folder ids (initial_world disk) = (Ok tt, w1) /\
    fetch_all bucket folder ids (initial_world (files w1)) = (Ok tt, w2) /\
    dems_to_merge w2 = dems_to_merge w1 /\
    files w2 = files w1 /\
    (forall key dest, (key, dest) ∈ requests w2 -> key ∉ bucket).
Proof.
  intros Hnd Hids.
  pose proof (NoDup_local_paths folder ids Hnd Hids) as Hndl.
  destruct (fetch_all_from bucket folder disk ids (initial_world disk) Hndl)
    as (w1 & Hrun1 & Hdems1 & _ & _).
  { intros p d _ _. reflexivity. }
  destruct (fetch_all_any bucket folder ids (initial_world disk))
    as (w1' & Hrun1' & _ & Hsub1 & Hnew1 & Hin1 & _).
  rewrite Hrun1 in Hrun1'. injection Hrun1' as <-.
  cbn [initial_world files dems_to_merge app] in *.
  destruct (fetch_all_from bucket folder (files w1) ids
              (initial_world (files w1)) Hndl)
    as (w2 & Hrun2 & Hdems2 & _ & Hreq2).
  { intros p d _ _. reflexivity. }
  destruct (fetch_all_any bucket folder ids (initial_world (files w1)))
    as (w2' & Hrun2' & _ & Hsub2 & Hnew2 & _ & _).
  rewrite Hrun2 in Hrun2'. injection Hrun2' as <-.
  cbn [initial_world files dems_to_merge requests app] in *.
  (* an identifier of the bucket has its file on the disk after run 1 *)
  assert (Hcached : forall p d, p ∈ ids -> p ∈ bucket ->
                      local_path folder p = Some d -> d ∈ files w1).
  { intros p d Hp Hb Hl.
    assert (Hd : d ∈ dems_to_merge w1).
    { rewrite Hdems1. apply list_elem_of_omap. exists p. split; [exact Hp |].
      apply resolved_path_Some. auto. }
    apply Hin1 in Hd as [Hd | [Hf _]]; [| exact Hf].
    apply elem_of_nil in Hd. destruct Hd. }
  (* resolving against the disk after run 1 is resolving against the disk
     before it *)
  assert (Hsame : forall p, p ∈ ids ->
            resolved_path bucket folder (files w1) p
            = resolved_path bucket folder disk p).
  { intros p Hp. unfold resolved_path.
    destruct (local_path folder p) as [d |] eqn:Hl; [| reflexivity].
    assert (E : bool_decide (d ∈ files w1 \/ p ∈ bucket)
                = bool_decide (d ∈ disk \/ p ∈ bucket)); [| rewrite E; reflexivity].
    apply bool_decide_ext. split.
    - intros [Hd | Hb]; [| auto].
      apply Hnew1 in Hd as [Hd | (q & Hq & Hb & Hlq)]; [auto |].
      right. assert (q = p) as <-; [| exact Hb].
      apply (local_path_tile_inj folder q p d); auto.
    - intros [Hd | Hb]; [left; apply Hsub1, Hd | auto]. }
  exists w1, w2. split; [exact Hrun1 |]. split; [exact Hrun2 |].
  split; [| split].
  - rewrite Hdems2, Hdems1. clear -Hsame.
    induction ids as [| p ids IH]; [reflexivity |].
    cbn [omap list_omap]. rewrite (Hsame p) by left.
    rewrite IH; [reflexivity |]. intros q Hq. apply Hsame. right. exact Hq.
  - apply set_eq. intros d. split; [| apply Hsub2].
    intros Hd. apply Hnew2 in Hd as [Hd | (q & Hq & Hb & Hlq)]; [exact Hd |].
    apply (Hcached q d); assumption.
  - intros key dest Hin Hb. rewrite Hreq2 in Hin.
    apply list_elem_of_In, in_flat_map in Hin as (q & Hq & Hin).
    apply list_elem_of_In in Hq.
    unfold request_of in Hin.
    destruct (local_path folder q) as [dq |] eqn:Hlq; [| destruct Hin].
    case_bool_decide as Hdq; [destruct Hin |].
    destruct Hin as [[= <- <-] | []].
    apply Hdq. apply (Hcached q dq); assumption.
Qed.

Lemma fetch_all_second_run_witness :
  exists w1 w2,
    fetch_all bucket_nt "dem" ids_nt (initial_world disk_nt) = (Ok tt, w1) /\
    fetch_all bucket_nt "dem" ids_nt (initial_world (files w1)) = (Ok tt, w2) /\
    dems_to_merge w2 = dems_to_merge w1.
Proof.
  destruct (fetch_all_second_run bucket_nt "dem" disk_nt ids_nt)
    as (w1 & w2 & H1 & H2 & H3 & _).
  - apply (bool_decide_unpack _). vm_compute. exact I.
  - intros p Hp. unfold ids_nt in Hp.
    repeat (apply elem_of_cons in Hp as [-> | Hp]; [eexists _, _; reflexivity |]).
    apply elem_of_nil in Hp. destruct Hp.
  - exists w1, w2. auto.
Defined.

(** ** One file per tile *)

Section NamingInjective.

Lemma has_underscore_zeros (k : nat) : has_char "_" (zeros k) = false.
Proof. induction k; [reflexivity | exact IHk]. Qed.

Lemma has_underscore_string_of_uint (d : Decimal.uint) :
  has_char "_" (NilEmpty.string_of_uint d) = false.
Proof. induction d; [reflexivity | exact IHd ..]. Qed.

Lemma has_underscore_py_format_0d (w : nat) (n : N) :
  has_char "_" (py_format_0d w n) = false.
Proof.
  unfold py_format_0d, py_str, NilZero.string_of_uint.
  rewrite has_char_app, has_underscore_zeros.
  cbn [orb].
  destruct (N.to_uint n) as [| u | u | u | u | u | u | u | u | u | u] eqn:E;
    [reflexivity | ..].
  all: match goal with
       | |- has_char _ (NilEmpty.string_of_uint ?d) = false =>
           exact (has_underscore_string_of_uint d)
       end.
Qed.

(** Two strings free of a character, each followed by that character, are
    equal when the whole strings are. *)
Lemma split_at_first (c : ascii) (a a' r r' : string) :
  has_char c a = false -> has_char c a' = false ->
  a +:+ String c r = a' +:+ String c r' -> a = a' /\ r = r'.
Proof.
  intros Ha Ha' H.
  assert (E : a :: split_on c r = a' :: split_on c r').
  { rewrite <- (split_on_app c a r Ha), <- (split_on_app c a' r' Ha').
    now rewrite H. }
  injection E as -> _. split; [reflexivity |].
  apply String.app_inj in H. now injection H.
Qed.

Lemma py_format_0d_inj (w : nat) (n n' : N) :
  py_format_0d w n = py_format_0d w n' -> n = n'.
Proof.
  intros H. apply (f_equal decimal_value) in H.
  rewrite !py_format_0d_value in H. now injection H.
Qed.

Lemma signed_magnitude_inj (z z' : Z) :
  (0 <=? z) = (0 <=? z') -> Z.to_N (Z.abs z) = Z.to_N (Z.abs z') -> z = z'.
Proof.
  intros Hs Hm.
  destruct (Z.leb_spec 0 z), (Z.leb_spec 0 z'); try discriminate; lia.
Qed.

(** The name of a tile determines its band pair. *)
Lemma tile_name_inj (lat long lat' long' : Z) :
  tile_name (lat_dir lat) (py_format_0d 2 (Z.to_N (Z.abs lat)))
            (long_dir long) (py_format_0d 3 (Z.to_N (Z.abs long)))
  = tile_name (lat_dir lat') (py_format_0d 2 (Z.to_N (Z.abs lat')))
              (long_dir long') (py_format_0d 3 (Z.to_N (Z.abs long'))) ->
  lat = lat' /\ long = long'.
Proof.
  unfold tile_name. intros H.
  apply String.app_inj in H.
  assert (Hlat : (0 <=? lat) = (0 <=? lat') /\
                 py_format_0d 2 (Z.to_N (Z.abs lat)) +:+ "_00_" +:+
                   long_dir long +:+ py_format_0d 3 (Z.to_N (Z.abs long)) +:+ "_00_DEM"
                 = py_format_0d 2 (Z.to_N (Z.abs lat')) +:+ "_00_" +:+
                   long_dir long' +:+ py_format_0d 3 (Z.to_N (Z.abs long')) +:+ "_00_DEM").
  { unfold lat_dir in H.
    destruct (0 <=? lat), (0 <=? lat'); rewrite !string_app_cons in H;
      try discriminate; injection H as H; auto. }
  destruct Hlat as [Hs H1].
  change ("_00_" +:+ ?x) with (String "_" ("00_" +:+ x)) in H1.
  apply split_at_first in H1 as [Hf H2];
    try apply has_underscore_py_format_0d.
  apply String.app_inj in H2.
  assert (Hlong : (0 <=? long) = (0 <=? long') /\
                  py_format_0d 3 (Z.to_N (Z.abs long)) +:+ "_00_DEM"
                  = py_format_0d 3 (Z.to_N (Z.abs long')) +:+ "_00_DEM").
  { unfold long_dir in H2.
    destruct (0 <=? long), (0 <=? long'); rewrite !string_app_cons in H2;
      try discriminate; injection H2 as H2; auto. }
  destruct Hlong as [Hs' H3].
  apply string_app_inv_tail in H3.
  apply py_format_0d_inj in Hf, H3.
  split; apply signed_magnitude_inj; assumption.
Qed.

(** Different band pairs have different paths. *)
Lemma dem_s3_path_inj_ne (lat long lat' long' : Z) :
  lat <> lat' \/ long <> long' ->
  dem_s3_path lat long = dem_s3_path lat' long' -> False.
Proof.
  intros Hne H. rewrite !dem_s3_path_pattern in H.
  change ("/" +:+ ?x) with (String "/" x) in H.
  apply split_at_first in H as [H _]; try apply has_slash_tile_name.
  apply tile_name_inj in H. destruct Hne; tauto.
Qed.

End NamingInjective.

(** X9: distinct (latitude, longitude) band pairs get distinct remote paths,
    for all integers (also where the zero-filled fields widen). *)
Theorem dem_s3_path_injective (lat long lat' long' : Z) :
  lat <> lat' \/ long <> long' ->
  dem_s3_path lat long <> dem_s3_path lat' long'.
Proof.
  intros Hne H. rewrite !dem_s3_path_pattern in H.
  change ("/" +:+ ?x) with (String "/" x) in H.
  apply split_at_first in H as [H _]; try apply has_slash_tile_name.
  apply tile_name_inj in H. destruct Hne; tauto.
Qed.

Lemma dem_s3_path_injective_witness :
  dem_s3_path 5 (-3) <> dem_s3_path (-5) 3.
Proof. apply (dem_s3_path_injective 5 (-3) (-5) 3). left. discriminate. Defined.

(** X10: two different tiles never share a file of the download folder. *)
Theorem local_path_injective (folder : string) (lat long lat' long' : Z) :
  lat <> lat' \/ long <> long' ->
  local_path folder (dem_s3_path lat long)
  <> local_path folder (dem_s3_path lat' long').
Proof.
  intros Hne. rewrite !local_path_tile. intros [= H].
  apply os_path_join_inj in H; try apply starts_with_tile_name.
  apply string_app_inv_tail in H. apply tile_name_inj in H.
  destruct Hne; tauto.
Qed.

Lemma local_path_injective_witness :
  local_path "dem" (dem_s3_path (-17) 130)
  <> local_path "dem" (dem_s3_path (-17) 131).
Proof.
  apply (local_path_injective "dem" (-17) 130 (-17) 131). right. discriminate.
Defined.

Section TileCount.

Lemma dem_s3_paths_raw_NoDup (lats longs : list Z) :
  NoDup lats -> NoDup longs -> NoDup (dem_s3_paths_raw lats longs).
Proof.
  intros Hlats Hlongs. unfold dem_s3_paths_raw.
  induction Hlats as [| lat lats Hnotin Hlats IH]; [constructor |].
  cbn [flat_map]. apply NoDup_app. split; [| split].
  - apply NoDup_ListNoDup, Finite.Injective_map_NoDup.
    + intros long long' H. destruct (decide (long = long')) as [E | Hne];
        [exact E | exfalso].
      apply (dem_s3_path_inj_ne lat long lat long'); [right; exact Hne | exact H].
    + apply NoDup_ListNoDup, Hlongs.
  - intros p Hp Hp'. apply list_elem_of_In in Hp, Hp'.
    apply in_map_iff in Hp as (long & <- & _).
    apply in_flat_map in Hp' as (lat' & Hlat' & Hp').
    apply in_map_iff in Hp' as (long' & Heq & _).
    destruct (decide (lat' = lat)) as [-> | Hne].
    + apply Hnotin, list_elem_of_In, Hlat'.
    + apply (dem_s3_path_inj_ne lat' long' lat long); [left; exact Hne | exact Heq].
  - exact IH.
Qed.

Lemma dem_s3_paths_raw_length (lats longs : list Z) :
  length (dem_s3_paths_raw lats longs) = (length lats * length longs)%nat.
Proof.
  unfold dem_s3_paths_raw. induction lats as [| lat lats IH]; [reflexivity |].
  cbn [flat_map length]. rewrite length_app, length_map, IH. lia.
Qed.

Lemma py_range_length (a b : Z) : length (py_range a b) = Z.to_nat (b - a).
Proof. unfold py_range. now rewrite length_map, length_seq. Qed.

End TileCount.

(** X11: for scene bounds with [x_min <= x_max] and [y_min <= y_max], of
    magnitude below [2 ^ 53], the de-duplication drops nothing: the
    requested tiles are the paths of the double loop up to order, one per
    band pair.  Their number is the product of the two band counts,
    [ceil(fl(max + 1)) - floor(min)] each; it lies between the products
    taken with [floor(max) + 1] and with [ceil(max) + 1] as stops, and is
    at least one. *)
Theorem tile_count (sb : Bounds) :
  (x_min sb <= x_max sb)%Q -> (y_min sb <= y_max sb)%Q ->
  (Qabs (x_max sb + 1) < inject_Z (2 ^ 53))%Q ->
  (Qabs (y_max sb + 1) < inject_Z (2 ^ 53))%Q ->
  dem_s3_paths (lats (scene_geom sb)) (longs (scene_geom sb))
    ≡ₚ dem_s3_paths_raw (lats (scene_geom sb)) (longs (scene_geom sb)) /\
  Z.of_nat (length (dem_s3_paths (lats (scene_geom sb))
                                 (longs (scene_geom sb))))
    = (Qceiling (fl (y_max sb + 1)) - Qfloor (y_min sb))
      * (Qceiling (fl (x_max sb + 1)) - Qfloor (x_min sb)) /\
  (Qfloor (y_max sb) - Qfloor (y_min sb) + 1)
    * (Qfloor (x_max sb) - Qfloor (x_min sb) + 1)
    <= Z.of_nat (length (dem_s3_paths (lats (scene_geom sb))
                                      (longs (scene_geom sb)))) /\
  Z.of_nat (length (dem_s3_paths (lats (scene_geom sb))
                                 (longs (scene_geom sb))))
    <= (Qceiling (y_max sb) - Qfloor (y_min sb) + 1)
       * (Qceiling (x_max sb) - Qfloor (x_min sb) + 1) /\
  (1 <= length (dem_s3_paths (lats (scene_geom sb))
                             (longs (scene_geom sb))))%nat.
Proof.
  intros Hx Hy Bx By.
  set (count := Z.of_nat (length (dem_s3_paths (lats (scene_geom sb))
                                               (longs (scene_geom sb))))).
  assert (Hone : 1 <= count ->
                 (1 <= length (dem_s3_paths (lats (scene_geom sb))
                                            (longs (scene_geom sb))))%nat)
    by (unfold count; lia).
  assert (Hperm :
    dem_s3_paths (lats (scene_geom sb)) (longs (scene_geom sb))
      ≡ₚ dem_s3_paths_raw (lats (scene_geom sb)) (longs (scene_geom sb))).
  { unfold dem_s3_paths. apply elements_list_to_set.
    apply dem_s3_paths_raw_NoDup; apply NoDup_ListNoDup, NoDup_py_range. }
  pose proof (band_stop_bounds (y_max sb) By) as Sy.
  pose proof (band_stop_bounds (x_max sb) Bx) as Sx.
  assert (Hlat : Qfloor (y_min sb) <= Qfloor (y_max sb))
    by (apply Qfloor_resp_le, Hy).
  assert (Hlon : Qfloor (x_min sb) <= Qfloor (x_max sb))
    by (apply Qfloor_resp_le, Hx).
  assert (Hlen : count
    = (Qceiling (fl (y_max sb + 1)) - Qfloor (y_min sb))
      * (Qceiling (fl (x_max sb + 1)) - Qfloor (x_min sb))).
  { unfold count.
    rewrite (Permutation_length Hperm), dem_s3_paths_raw_length.
    unfold lats, longs. rewrite !py_range_length.
    assert (Elat : Qceiling (fl (max_lat (scene_geom sb) + 1))
                   = Qceiling (fl (y_max sb + 1))).
    { apply Qceiling_comp, fl_comp.
      rewrite (max_lat_scene_geom sb Hy). reflexivity. }
    assert (Elon : Qceiling (fl (max_lon (scene_geom sb) + 1))
                   = Qceiling (fl (x_max sb + 1))).
    { apply Qceiling_comp, fl_comp.
      rewrite (max_lon_scene_geom sb Hx). reflexivity. }
    rewrite Elat, Elon.
    rewrite (Qfloor_comp _ _ (min_lat_scene_geom sb Hy)).
    rewrite (Qfloor_comp _ _ (min_lon_scene_geom sb Hx)).
    rewrite Nat2Z.inj_mul, !Z2Nat.id by lia. reflexivity. }
  split; [exact Hperm |]. split; [exact Hlen |].
  split; [| split; [| apply Hone]]; rewrite Hlen; nia.
Qed.

Lemma tile_count_witness :
  Z.of_nat (length (dem_s3_paths (lats (scene_geom scene_nt))
                                 (longs (scene_geom scene_nt)))) = 3 * 2.
Proof.
  destruct (tile_count scene_nt) as (_ & H & _).
  - vm_compute. discriminate.
  - vm_compute. discriminate.
  - vm_compute. reflexivity.
  - vm_compute. reflexivity.
  - exact H.
Defined.

(** ** Tiles side by side *)


Section OrderOfTiles.

Lemma contributes_covers (nodata : Q) (r c : Z) (t : Tile) (v : Q) :
  contributes nodata r c t v -> tile_covers t r c = true.
Proof.
  unfold contributes, tile_at. intros [H _].
  destruct (tile_covers t r c); [reflexivity | discriminate].
Qed.

Lemma contributes_functional (nodata : Q) (r c : Z) (t : Tile) (v v' : Q) :
  contributes nodata r c t v -> contributes nodata r c t v' -> v = v'.
Proof. unfold contributes. intros [H _] [H' _]. congruence. Qed.

(** The merged value at a pixel of non-overlapping tiles: the value of the
    tile that writes it, whatever its place in the list. *)
Lemma merged_pixel_non_overlapping
    (nodata : Q) (tiles : list Tile) (r c : Z) :
  non_overlapping tiles ->
  ((forall t v, In t tiles -> ~ contributes nodata r c t v) /\
   merged_pixel nodata tiles r c = 0%Q) \/
  (exists t v, In t tiles /\ contributes nodata r c t v /\
               merged_pixel nodata tiles r c = v).
Proof.
  intros Hno. unfold merged_pixel.
  destruct (fold_copy_into_last nodata r c tiles 0%Q)
    as [[Hnone E] | (pre & t & post & v & -> & Hv & _ & E)].
  - left. auto.
  - right. exists t, v. split; [| auto].
    apply in_app_iff. right. left. reflexivity.
Qed.

Lemma merged_pixel_perm (nodata : Q) (tiles tiles' : list Tile) (r c : Z) :
  Permutation tiles tiles' -> non_overlapping tiles ->
  merged_pixel nodata tiles r c = merged_pixel nodata tiles' r c.
Proof.
  intros Hperm Hno.
  assert (Hno' : non_overlapping tiles').
  { intros r0 c0 t1 t2 H1 H2. apply Hno.
    - apply (Permutation_in _ (Permutation_sym Hperm) H1).
    - apply (Permutation_in _ (Permutation_sym Hperm) H2). }
  destruct (merged_pixel_non_overlapping nodata tiles r c Hno)
    as [[Hnone ->] | (t & v & Hin & Hv & ->)];
    destruct (merged_pixel_non_overlapping nodata tiles' r c Hno')
    as [[Hnone' ->] | (t' & v' & Hin' & Hv' & ->)].
  - reflexivity.
  - exfalso. apply (Hnone t' v'); [| exact Hv'].
    apply (Permutation_in _ (Permutation_sym Hperm) Hin').
  - exfalso. apply (Hnone' t v); [| exact Hv].
    apply (Permutation_in _ Hperm Hin).
  - assert (t = t') as <-.
    { apply (Hno r c); auto.
      + apply (Permutation_in _ (Permutation_sym Hperm) Hin').
      + eapply contributes_covers; eassumption.
      + eapply contributes_covers; eassumption. }
    eapply contributes_functional; eassumption.
Qed.

Lemma fold_min_perm (l l' : list Z) (x x' : Z) :
  Permutation (x :: l) (x' :: l') ->
  fold_left Z.min l x = fold_left Z.min l' x'.
Proof.
  intros Hperm.
  destruct (fold_min_le l x) as (H1 & H2 & H3).
  destruct (fold_min_le l' x') as (H1' & H2' & H3').
  apply (Permutation_in _ Hperm) in H3.
  apply (Permutation_in _ (Permutation_sym Hperm)) in H3'.
  assert (A : fold_left Z.min l' x' <= fold_left Z.min l x)
    by (destruct H3 as [<- | H3]; auto).
  assert (B : fold_left Z.min l x <= fold_left Z.min l' x')
    by (destruct H3' as [<- | H3']; auto).
  lia.
Qed.

Lemma fold_max_perm (l l' : list Z) (x x' : Z) :
  Permutation (x :: l) (x' :: l') ->
  fold_left Z.max l x = fold_left Z.max l' x'.
Proof.
  intros Hperm.
  destruct (fold_max_ge l x) as (H1 & H2 & H3).
  destruct (fold_max_ge l' x') as (H1' & H2' & H3').
  apply (Permutation_in _ Hperm) in H3.
  apply (Permutation_in _ (Permutation_sym Hperm)) in H3'.
  assert (A : fold_left Z.max l x <= fold_left Z.max l' x')
    by (destruct H3 as [<- | H3]; auto).
  assert (B : fold_left Z.max l' x' <= fold_left Z.max l x)
    by (destruct H3' as [<- | H3']; auto).
  lia.
Qed.

End OrderOfTiles.

(** X12: the mosaic of tiles that do not overlap does not depend on the
    order in which they are listed: same window, same value at every
    pixel. *)
Theorem merge_dem_order_irrelevant (tiles tiles' : list Tile) :
  tiles <> [] -> Permutation tiles tiles' -> non_overlapping tiles ->
  exists m m',
    merge_dem tiles = Some m /\ merge_dem tiles' = Some m' /\
    col_off m = col_off m' /\ row_off m = row_off m' /\
    t_width m = t_width m' /\ t_height m = t_height m' /\
    forall r c, px m r c = px m' r c.
Proof.
  intros Hne Hperm Hno.
  destruct tiles as [| t0 rest]; [congruence |].
  destruct tiles' as [| t0' rest'];
    [apply Permutation_sym, Permutation_nil_cons in Hperm; destruct Hperm |].
  unfold merge_dem, gdal_merge. eexists _, _.
  split; [reflexivity |]. split; [reflexivity |].
  cbn [col_off row_off t_width t_height px].
  assert (Ec : fold_left Z.min (List.map col_off rest) (col_off t0)
               = fold_left Z.min (List.map col_off rest') (col_off t0'))
    by (apply fold_min_perm, (Permutation_map col_off Hperm)).
  assert (Er : fold_left Z.min (List.map row_off rest) (row_off t0)
               = fold_left Z.min (List.map row_off rest') (row_off t0'))
    by (apply fold_min_perm, (Permutation_map row_off Hperm)).
  assert (Ece : fold_left Z.max (List.map col_end rest) (col_end t0)
                = fold_left Z.max (List.map col_end rest') (col_end t0'))
    by (apply fold_max_perm, (Permutation_map col_end Hperm)).
  assert (Ere : fold_left Z.max (List.map row_end rest) (row_end t0)
                = fold_left Z.max (List.map row_end rest') (row_end t0'))
    by (apply fold_max_perm, (Permutation_map row_end Hperm)).
  rewrite Ec, Er, Ece, Ere.
  repeat split; try reflexivity.
  intros r c. apply merged_pixel_perm; assumption.
Qed.


Lemma non_overlapping_west_east : non_overlapping [tile_west; tile_east].
Proof.
  intros r c t1 t2 H1 H2 C1 C2.
  destruct H1 as [<- | [<- | []]]; destruct H2 as [<- | [<- | []]];
    try reflexivity; exfalso;
    unfold tile_covers, row_end, col_end in C1, C2;
    cbn [row_off col_off t_width t_height tile_west tile_east] in C1, C2;
    lia.
Qed.

Lemma merge_dem_order_irrelevant_witness :
  exists m m',
    merge_dem [tile_west; tile_east] = Some m /\
    merge_dem [tile_east; tile_west] = Some m' /\
    col_off m = col_off m' /\ row_off m = row_off m' /\
    t_width m = t_width m' /\ t_height m = t_height m' /\
    forall r c, px m r c = px m' r c.
Proof.
  apply (merge_dem_order_irrelevant [tile_west; tile_east]
           [tile_east; tile_west]).
  - discriminate.
  - apply perm_swap.
  - exact non_overlapping_west_east.
Defined.

(** X13: the mosaic of tiles that do not overlap reproduces every tile on
    the tile's own window and holds 0 at the pixels no tile holds. *)
Theorem merge_dem_reproduces_tiles (tiles : list Tile) :
  tiles <> [] -> non_overlapping tiles ->
  exists m,
    merge_dem tiles = Some m /\
    (forall t r c, In t tiles -> tile_covers t r c = true ->
       px m (r - row_off m) (c - col_off m)
       == px t (r - row_off t) (c - col_off t)) /\
    (forall r c, (forall t, In t tiles -> tile_covers t r c = false) ->
       px m (r - row_off m) (c - col_off m) = 0%Q).
Proof.
  intros Hne Hno. destruct tiles as [| t0 rest]; [congruence |].
  unfold merge_dem, gdal_merge. eexists. split; [reflexivity |].
  cbn [col_off row_off px].
  set (ulr := fold_left Z.min (List.map row_off rest) (row_off t0)).
  set (ulc := fold_left Z.min (List.map col_off rest) (col_off t0)).
  split.
  - intros t r c Hin Hcov.
    replace (ulr + (r - ulr)) with r by lia.
    replace (ulc + (c - ulc)) with c by lia.
    assert (Hat : tile_at t r c = Some (px t (r - row_off t) (c - col_off t)))
      by (unfold tile_at; rewrite Hcov; reflexivity).
    destruct (merged_pixel_non_overlapping 0 (t0 :: rest) r c Hno)
      as [[Hnone ->] | (t' & v' & Hin' & Hv' & ->)].
    + destruct (Qeq_bool (px t (r - row_off t) (c - col_off t)) 0) eqn:E.
      * apply Qeq_bool_iff in E. symmetry. exact E.
      * exfalso.
        apply (Hnone t (px t (r - row_off t) (c - col_off t)) Hin).
        split; assumption.
    + assert (t' = t) as ->.
      { apply (Hno r c); auto. eapply contributes_covers; eassumption. }
      destruct Hv' as [Hv' _]. rewrite Hat in Hv'.
      injection Hv' as <-. reflexivity.
  - intros r c Hgap.
    replace (ulr + (r - ulr)) with r by lia.
    replace (ulc + (c - ulc)) with c by lia.
    destruct (merged_pixel_non_overlapping 0 (t0 :: rest) r c Hno)
      as [[_ E] | (t' & v' & Hin' & Hv' & _)]; [exact E |].
    apply contributes_covers in Hv'. rewrite (Hgap t' Hin') in Hv'.
    discriminate.
Qed.

Lemma merge_dem_reproduces_tiles_witness :
  exists m,
    merge_dem [tile_west; tile_east] = Some m /\
    (forall t r c, In t [tile_west; tile_east] -> tile_covers t r c = true ->
       px m (r - row_off m) (c - col_off m)
       == px t (r - row_off t) (c - col_off t)) /\
    (forall r c,
       (forall t, In t [tile_west; tile_east] -> tile_covers t r c = false) ->
       px m (r - row_off m) (c - col_off m) = 0%Q).
Proof.
  apply (merge_dem_reproduces_tiles [tile_west; tile_east]).
  - discriminate.
  - exact non_overlapping_west_east.
Defined.

(** ** Paths and the run configuration *)

Import Notebook.



Section PathFacts.

Lemma starts_with_app (c : ascii) (a b : string) :
  a <> "" -> starts_with c (a +:+ b) = starts_with c a.
Proof. destruct a as [| x a]; [congruence | reflexivity]. Qed.

Lemma starts_with_nonempty (c : ascii) (a : string) :
  starts_with c a = true -> a <> "".
Proof. destruct a; [discriminate | discriminate]. Qed.

(** Joining onto a directory keeps its first character, when the joined
    component is relative. *)
Lemma starts_with_os_path_join (a b : string) :
  a <> "" -> starts_with "/" b = false ->
  starts_with "/" (os_path_join a b) = starts_with "/" a.
Proof.
  intros Ha Hb. unfold os_path_join. rewrite Hb.
  destruct (String.eqb a "" || ends_with "/" a);
    apply starts_with_app, Ha.
Qed.

Lemma os_path_join_nonempty (a b : string) :
  a <> "" -> starts_with "/" b = false -> os_path_join a b <> "".
Proof.
  intros Ha Hb. unfold os_path_join. rewrite Hb.
  destruct a as [| x a]; [congruence |].
  destruct (String.eqb (String x a) "" || ends_with "/" (String x a));
    rewrite string_app_cons; discriminate.
Qed.

Lemma os_path_join_empty (b : string) : os_path_join "" b = b.
Proof. unfold os_path_join. destruct (starts_with "/" b); reflexivity. Qed.

Lemma os_path_join_absolute (a b : string) :
  starts_with "/" b = true -> os_path_join a b = b.
Proof. intros Hb. unfold os_path_join. now rewrite Hb. Qed.

(** Joining a relative component onto a non-empty directory gives a longer
    path. *)
Lemma os_path_join_longer (a b : string) :
  a <> "" -> starts_with "/" b = false ->
  (String.length b < String.length (os_path_join a b))%nat.
Proof.
  intros Ha Hb. unfold os_path_join. rewrite Hb.
  destruct a as [| x a]; [congruence |].
  destruct (String.eqb (String x a) "" || ends_with "/" (String x a));
    rewrite !string_app_length; cbn [String.length]; lia.
Qed.

Lemma loop_variable_last {A} (before : option A) (l : list A) :
  loop_variable before l =
    match last l with Some x => Some x | None => before end.
Proof.
  unfold loop_variable. revert before.
  induction l as [| x l IH]; intros before; [reflexivity |].
  cbn [fold_left]. rewrite IH. destruct l as [| a l]; [reflexivity |].
  change (last (x :: a :: l)) with (last (a :: l)).
  destruct (last (a :: l)) eqn:E; [reflexivity |].
  apply last_None in E. discriminate.
Qed.

End PathFacts.

(** X15: after the download and orbit loops, [scene] holds the path of the
    scene in the download folder.  The SAFE file written into the
    configuration, [os.path.join(data_dir, scene + ".zip")], is that path
    with ".zip" exactly when [data_dir] is absolute (or empty): joined
    onto a relative [data_dir], the directory is prefixed a second time. *)
Theorem safe_file_path_needs_absolute_data_dir
    (data_dir : string) (r : SearchResult) (rest : list SearchResult) :
  starts_with "/" (sceneName r) = false ->
  exists scene,
    scene_variable data_dir (r :: rest) = Some scene /\
    scene = os_path_join (download_folder data_dir) (sceneName r) /\
    (os_path_join data_dir (scene +:+ ".zip") = scene +:+ ".zip" <->
     data_dir = "" \/ starts_with "/" data_dir = true).
Proof.
  intros Hname. eexists. split; [reflexivity |]. split; [reflexivity |].
  unfold download_folder.
  destruct (decide (data_dir = "")) as [-> | Hne].
  { split; [auto | intros _]. apply os_path_join_empty. }
  set (scene := os_path_join (os_path_join data_dir "scenes") (sceneName r)).
  assert (Hfolder : os_path_join data_dir "scenes" <> "")
    by (apply os_path_join_nonempty; [exact Hne | reflexivity]).
  assert (Hscene : scene <> "")
    by (apply os_path_join_nonempty; assumption).
  assert (Hstart : starts_with "/" (scene +:+ ".zip") = starts_with "/" data_dir).
  { rewrite starts_with_app by exact Hscene. unfold scene.
    rewrite starts_with_os_path_join by assumption.
    apply starts_with_os_path_join; [exact Hne | reflexivity]. }
  split.
  - intros E. right.
    destruct (starts_with "/" data_dir) eqn:Habs; [reflexivity | exfalso].
    pose proof (os_path_join_longer data_dir (scene +:+ ".zip") Hne Hstart) as Hl.
    rewrite E in Hl. lia.
  - intros [E | Habs]; [congruence |].
    apply os_path_join_absolute. rewrite Hstart. exact Habs.
Qed.

Lemma safe_file_path_needs_absolute_data_dir_witness :
  os_path_join "/g/data" ("/g/data/scenes/S1B_IW_SLC" +:+ ".zip")
    = "/g/data/scenes/S1B_IW_SLC.zip" /\
  os_path_join "data" ("data/scenes/S1B_IW_SLC" +:+ ".zip")
    <> "data/scenes/S1B_IW_SLC.zip".
Proof.
  destruct (safe_file_path_needs_absolute_data_dir "/g/data"
              (mkSearchResult "S1B_IW_SLC" "HH") [] eq_refl)
    as (s1 & _ & -> & [_ H1]).
  destruct (safe_file_path_needs_absolute_data_dir "data"
              (mkSearchResult "S1B_IW_SLC" "HH") [] eq_refl)
    as (s2 & _ & -> & [H2 _]).
  split.
  - apply H1. right. reflexivity.
  - intros E. destruct (H2 E) as [H | H]; discriminate.
Defined.

Section ConfigFacts.

Lemma config_value_set_item_eq (cfg cfg' : Groups) (g k : string) (v : Value) :
  set_item g k v cfg = inr cfg' -> config_value cfg' g k = Some v.
Proof.
  unfold set_item, config_value. destruct (cfg !! g) as [grp |]; [| discriminate].
  intros [= <-]. rewrite lookup_insert_eq. cbn. apply lookup_insert_eq.
Qed.

Lemma config_value_set_item_ne
    (cfg cfg' : Groups) (g k g' k' : string) (v : Value) :
  set_item g k v cfg = inr cfg' -> (g, k) <> (g', k') ->
  config_value cfg' g' k' = config_value cfg g' k'.
Proof.
  unfold set_item, config_value. destruct (cfg !! g) as [grp |] eqn:E;
    [| discriminate].
  intros [= <-] Hne. destruct (decide (g = g')) as [<- | Hg].
  - rewrite lookup_insert_eq, E. cbn. apply lookup_insert_ne. congruence.
  - rewrite lookup_insert_ne by exact Hg. reflexivity.
Qed.

Lemma set_item_groups (cfg cfg' : Groups) (g k : string) (v : Value) :
  set_item g k v cfg = inr cfg' -> dom cfg' = dom cfg.
Proof.
  unfold set_item. destruct (cfg !! g) as [grp |] eqn:E; [| discriminate].
  intros [= <-]. rewrite dom_insert_L.
  apply subseteq_union_1_L, singleton_subseteq_l, elem_of_dom. eauto.
Qed.

Lemma set_item_present (cfg : Groups) (g k : string) (v : Value) :
  g ∈ dom cfg -> exists cfg', set_item g k v cfg = inr cfg'.
Proof.
  intros Hg. apply elem_of_dom in Hg as [grp E]. unfold set_item.
  rewrite E. eauto.
Qed.

End ConfigFacts.

(** With the four groups present every assignment of the cell goes
    through. *)
Lemma edit_config_frame_aux
    (data_dir scene prec_orb dem_path name pol : string) (cfg : Groups) :
  "input_file_group" ∈ dom cfg ->
  "dynamic_ancillary_file_group" ∈ dom cfg ->
  "product_group" ∈ dom cfg ->
  "processing" ∈ dom cfg ->
  exists cfg',
    edit_config data_dir (Some scene) (Some prec_orb) dem_path name pol cfg
      = inr cfg'.
Proof.
  intros H1 H2 H3 H4. unfold edit_config. cbn [and_then read_variable].
  destruct (set_item_present cfg "input_file_group" "safe_file_path"
              (VList [os_path_join data_dir (scene +:+ ".zip")]) H1)
    as (c1 & E1).
  rewrite E1. cbn [and_then read_variable].
  pose proof (set_item_groups _ _ _ _ _ E1) as D1.
  destruct (set_item_present c1 "input_file_group" "orbit_file_path"
              (VList [prec_orb])) as (c2 & E2); [rewrite D1; exact H1 |].
  rewrite E2. cbn [and_then read_variable].
  pose proof (set_item_groups _ _ _ _ _ E2) as D2.
  destruct (set_item_present c2 "dynamic_ancillary_file_group" "dem_file"
              (VStr dem_path)) as (c3 & E3); [rewrite D2, D1; exact H2 |].
  rewrite E3. cbn [and_then read_variable].
  pose proof (set_item_groups _ _ _ _ _ E3) as D3.
  destruct (set_item_present c3 "product_group" "output_dir"
              (VStr (rtc_outpath data_dir))) as (c4 & E4);
    [rewrite D3, D2, D1; exact H3 |].
  rewrite E4. cbn [and_then read_variable].
  pose proof (set_item_groups _ _ _ _ _ E4) as D4.
  destruct (set_item_present c4 "product_group" "save_mosaics" (VBool true))
    as (c5 & E5); [rewrite D4, D3, D2, D1; exact H3 |].
  rewrite E5. cbn [and_then read_variable].
  pose proof (set_item_groups _ _ _ _ _ E5) as D5.
  destruct (set_item_present c5 "product_group" "product_path" (VStr "."))
    as (c6 & E6); [rewrite D5, D4, D3, D2, D1; exact H3 |].
  rewrite E6. cbn [and_then read_variable].
  pose proof (set_item_groups _ _ _ _ _ E6) as D6.
  destruct (set_item_present c6 "product_group" "scratch_path"
              (VStr (rtc_scratch_dir data_dir))) as (c7 & E7);
    [rewrite D6, D5, D4, D3, D2, D1; exact H3 |].
  rewrite E7. cbn [and_then read_variable].
  pose proof (set_item_groups _ _ _ _ _ E7) as D7.
  destruct (set_item_present c7 "product_group" "product_id"
              (VStr ("OPERA_L2_RTC-S1_" +:+ name))) as (c8 & E8);
    [rewrite D7, D6, D5, D4, D3, D2, D1; exact H3 |].
  rewrite E8. cbn [and_then read_variable].
  pose proof (set_item_groups _ _ _ _ _ E8) as D8.
  destruct (set_item_present c8 "processing" "polarization"
              (VStr (if (2 <? String.length pol)%nat
                     then "dual-pol" else "co-pol"))) as (c9 & E9);
    [rewrite D8, D7, D6, D5, D4, D3, D2, D1; exact H4 |].
  rewrite E9. eauto.
Qed.

(** X16: with the four groups in the template and [scene] and
    [prec_orb_path] bound, the cell succeeds; afterwards each of the nine keys
    holds the value assigned to it, every other key of every group holds what
    the template had, and no group is added or removed. *)
Theorem edit_config_frame
    (data_dir scene prec_orb dem_path name pol : string) (cfg : Groups) :
  "input_file_group" ∈ dom cfg ->
  "dynamic_ancillary_file_group" ∈ dom cfg ->
  "product_group" ∈ dom cfg ->
  "processing" ∈ dom cfg ->
  exists cfg',
    edit_config data_dir (Some scene) (Some prec_orb) dem_path name pol cfg
      = inr cfg' /\
    config_value cfg' "input_file_group" "safe_file_path"
      = Some (VList [os_path_join data_dir (scene +:+ ".zip")]) /\
    config_value cfg' "input_file_group" "orbit_file_path"
      = Some (VList [prec_orb]) /\
    config_value cfg' "dynamic_ancillary_file_group" "dem_file"
      = Some (VStr dem_path) /\
    config_value cfg' "product_group" "output_dir"
      = Some (VStr (rtc_outpath data_dir)) /\
    config_value cfg' "product_group" "save_mosaics" = Some (VBool true) /\
    config_value cfg' "product_group" "product_path" = Some (VStr ".") /\
    config_value cfg' "product_group" "scratch_path"
      = Some (VStr (rtc_scratch_dir data_dir)) /\
    config_value cfg' "product_group" "product_id"
      = Some (VStr ("OPERA_L2_RTC-S1_" +:+ name)) /\
    config_value cfg' "processing" "polarization"
      = Some (VStr (if (2 <? String.length pol)%nat
                    then "dual-pol" else "co-pol")) /\
    (forall g k, (g, k) ∉ edited_keys ->
                 config_value cfg' g k = config_value cfg g k) /\
    dom cfg' = dom cfg.
Proof.
  intros H1 H2 H3 H4. unfold edit_config. cbn [and_then read_variable].
  destruct (set_item_present cfg "input_file_group" "safe_file_path"
              (VList [os_path_join data_dir (scene +:+ ".zip")]) H1)
    as (c1 & E1).
  rewrite E1. cbn [and_then read_variable]. pose proof (set_item_groups _ _ _ _ _ E1) as D1.
  destruct (set_item_present c1 "input_file_group" "orbit_file_path"
              (VList [prec_orb])) as (c2 & E2); [rewrite D1; exact H1 |].
  rewrite E2. cbn [and_then read_variable]. pose proof (set_item_groups _ _ _ _ _ E2) as D2.
  destruct (set_item_present c2 "dynamic_ancillary_file_group" "dem_file"
              (VStr dem_path)) as (c3 & E3); [rewrite D2, D1; exact H2 |].
  rewrite E3. cbn [and_then read_variable]. pose proof (set_item_groups _ _ _ _ _ E3) as D3.
  destruct (set_item_present c3 "product_group" "output_dir"
              (VStr (rtc_outpath data_dir))) as (c4 & E4);
    [rewrite D3, D2, D1; exact H3 |].
  rewrite E4. cbn [and_then read_variable]. pose proof (set_item_groups _ _ _ _ _ E4) as D4.
  destruct (set_item_present c4 "product_group" "save_mosaics" (VBool true))
    as (c5 & E5); [rewrite D4, D3, D2, D1; exact H3 |].
  rewrite E5. cbn [and_then read_variable]. pose proof (set_item_groups _ _ _ _ _ E5) as D5.
  destruct (set_item_present c5 "product_group" "product_path" (VStr "."))
    as (c6 & E6); [rewrite D5, D4, D3, D2, D1; exact H3 |].
  rewrite E6. cbn [and_then read_variable]. pose proof (set_item_groups _ _ _ _ _ E6) as D6.
  destruct (set_item_present c6 "product_group" "scratch_path"
              (VStr (rtc_scratch_dir data_dir))) as (c7 & E7);
    [rewrite D6, D5, D4, D3, D2, D1; exact H3 |].
  rewrite E7. cbn [and_then read_variable]. pose proof (set_item_groups _ _ _ _ _ E7) as D7.
  destruct (set_item_present c7 "product_group" "product_id"
              (VStr ("OPERA_L2_RTC-S1_" +:+ name))) as (c8 & E8);
    [rewrite D7, D6, D5, D4, D3, D2, D1; exact H3 |].
  rewrite E8. cbn [and_then read_variable]. pose proof (set_item_groups _ _ _ _ _ E8) as D8.
  destruct (set_item_present c8 "processing" "polarization"
              (VStr (if (2 <? String.length pol)%nat
                     then "dual-pol" else "co-pol"))) as (c9 & E9);
    [rewrite D8, D7, D6, D5, D4, D3, D2, D1; exact H4 |].
  rewrite E9. cbn [and_then read_variable]. pose proof (set_item_groups _ _ _ _ _ E9) as D9.
  exists c9. split; [reflexivity |].
  pose proof (config_value_set_item_eq _ _ _ _ _ E1) as V1.
  pose proof (config_value_set_item_eq _ _ _ _ _ E2) as V2.
  pose proof (config_value_set_item_eq _ _ _ _ _ E3) as V3.
  pose proof (config_value_set_item_eq _ _ _ _ _ E4) as V4.
  pose proof (config_value_set_item_eq _ _ _ _ _ E5) as V5.
  pose proof (config_value_set_item_eq _ _ _ _ _ E6) as V6.
  pose proof (config_value_set_item_eq _ _ _ _ _ E7) as V7.
  pose proof (config_value_set_item_eq _ _ _ _ _ E8) as V8.
  pose proof (config_value_set_item_eq _ _ _ _ _ E9) as V9.
  assert (Hframe : forall g k, (g, k) ∉ edited_keys ->
            config_value c9 g k = config_value cfg g k).
  { intros g k Hgk. unfold edited_keys in Hgk.
    rewrite !not_elem_of_cons in Hgk.
    destruct Hgk as (N1 & N2 & N3 & N4 & N5 & N6 & N7 & N8 & N9 & _).
    rewrite (config_value_set_item_ne _ _ _ _ g k _ E9) by congruence.
    rewrite (config_value_set_item_ne _ _ _ _ g k _ E8) by congruence.
    rewrite (config_value_set_item_ne _ _ _ _ g k _ E7) by congruence.
    rewrite (config_value_set_item_ne _ _ _ _ g k _ E6) by congruence.
    rewrite (config_value_set_item_ne _ _ _ _ g k _ E5) by congruence.
    rewrite (config_value_set_item_ne _ _ _ _ g k _ E4) by congruence.
    rewrite (config_value_set_item_ne _ _ _ _ g k _ E3) by congruence.
    rewrite (config_value_set_item_ne _ _ _ _ g k _ E2) by congruence.
    apply (config_value_set_item_ne _ _ _ _ g k _ E1). congruence. }
  repeat split; try exact Hframe; try congruence.
  - rewrite (config_value_set_item_ne _ _ _ _ _ _ _ E9) by discriminate.
    rewrite (config_value_set_item_ne _ _ _ _ _ _ _ E8) by discriminate.
    rewrite (config_value_set_item_ne _ _ _ _ _ _ _ E7) by discriminate.
    rewrite (config_value_set_item_ne _ _ _ _ _ _ _ E6) by discriminate.
    rewrite (config_value_set_item_ne _ _ _ _ _ _ _ E5) by discriminate.
    rewrite (config_value_set_item_ne _ _ _ _ _ _ _ E4) by discriminate.
    rewrite (config_value_set_item_ne _ _ _ _ _ _ _ E3) by discriminate.
    rewrite (config_value_set_item_ne _ _ _ _ _ _ _ E2) by discriminate.
    exact V1.
  - rewrite (config_value_set_item_ne _ _ _ _ _ _ _ E9) by discriminate.
    rewrite (config_value_set_item_ne _ _ _ _ _ _ _ E8) by discriminate.
    rewrite (config_value_set_item_ne _ _ _ _ _ _ _ E7) by discriminate.
    rewrite (config_value_set_item_ne _ _ _ _ _ _ _ E6) by discriminate.
    rewrite (config_value_set_item_ne _ _ _ _ _ _ _ E5) by discriminate.
    rewrite (config_value_set_item_ne _ _ _ _ _ _ _ E4) by discriminate.
    rewrite (config_value_set_item_ne _ _ _ _ _ _ _ E3) by discriminate.
    exact V2.
  - rewrite (config_value_set_item_ne _ _ _ _ _ _ _ E9) by discriminate.
    rewrite (config_value_set_item_ne _ _ _ _ _ _ _ E8) by discriminate.
    rewrite (config_value_set_item_ne _ _ _ _ _ _ _ E7) by discriminate.
    rewrite (config_value_set_item_ne _ _ _ _ _ _ _ E6) by discriminate.
    rewrite (config_value_set_item_ne _ _ _ _ _ _ _ E5) by discriminate.
    rewrite (config_value_set_item_ne _ _ _ _ _ _ _ E4) by discriminate.
    exact V3.
  - rewrite (config_value_set_item_ne _ _ _ _ _ _ _ E9) by discriminate.
    rewrite (config_value_set_item_ne _ _ _ _ _ _ _ E8) by discriminate.
    rewrite (config_value_set_item_ne _ _ _ _ _ _ _ E7) by discriminate.
    rewrite (config_value_set_item_ne _ _ _ _ _ _ _ E6) by discriminate.
    rewrite (config_value_set_item_ne _ _ _ _ _ _ _ E5) by discriminate.
    exact V4.
  - rewrite (config_value_set_item_ne _ _ _ _ _ _ _ E9) by discriminate.
    rewrite (config_value_set_item_ne _ _ _ _ _ _ _ E8) by discriminate.
    rewrite (config_value_set_item_ne _ _ _ _ _ _ _ E7) by discriminate.
    rewrite (config_value_set_item_ne _ _ _ _ _ _ _ E6) by discriminate.
    exact V5.
  - rewrite (config_value_set_item_ne _ _ _ _ _ _ _ E9) by discriminate.
    rewrite (config_value_set_item_ne _ _ _ _ _ _ _ E8) by discriminate.
    rewrite (config_value_set_item_ne _ _ _ _ _ _ _ E7) by discriminate.
    exact V6.
  - rewrite (config_value_set_item_ne _ _ _ _ _ _ _ E9) by discriminate.
    rewrite (config_value_set_item_ne _ _ _ _ _ _ _ E8) by discriminate.
    exact V7.
  - rewrite (config_value_set_item_ne _ _ _ _ _ _ _ E9) by discriminate.
    exact V8.
Qed.

Lemma set_item_inr_dom (cfg cfg' : Groups) (g k : string) (v : Value) :
  set_item g k v cfg = inr cfg' -> g ∈ dom cfg.
Proof.
  unfold set_item. destruct (cfg !! g) as [grp |] eqn:E; [| discriminate].
  intros _. apply elem_of_dom. eauto.
Qed.

(** X17: the cell runs through exactly when [scene] and [prec_orb_path] are
    bound and the template has the four groups it writes to. *)
Theorem edit_config_succeeds_iff
    (data_dir : string) (scene prec_orb : option string)
    (dem_path name pol : string) (cfg : Groups) :
  (exists cfg',
     edit_config data_dir scene prec_orb dem_path name pol cfg = inr cfg') <->
  is_Some scene /\ is_Some prec_orb /\
  "input_file_group" ∈ dom cfg /\
  "dynamic_ancillary_file_group" ∈ dom cfg /\
  "product_group" ∈ dom cfg /\
  "processing" ∈ dom cfg.
Proof.
  split.
  - intros (cfg' & H). unfold edit_config in H.
    destruct scene as [s |]; [| discriminate].
    cbn [and_then read_variable] in H.
    destruct (set_item "input_file_group" "safe_file_path" _ cfg)
      as [e | c1] eqn:E1; [discriminate |]. cbn [and_then] in H.
    destruct prec_orb as [o |]; [| discriminate].
    cbn [and_then read_variable] in H.
    destruct (set_item "input_file_group" "orbit_file_path" _ c1)
      as [e | c2] eqn:E2; [discriminate |]. cbn [and_then] in H.
    destruct (set_item "dynamic_ancillary_file_group" "dem_file" _ c2)
      as [e | c3] eqn:E3; [discriminate |]. cbn [and_then] in H.
    destruct (set_item "product_group" "output_dir" _ c3)
      as [e | c4] eqn:E4; [discriminate |]. cbn [and_then] in H.
    destruct (set_item "product_group" "save_mosaics" _ c4)
      as [e | c5] eqn:E5; [discriminate |]. cbn [and_then] in H.
    destruct (set_item "product_group" "product_path" _ c5)
      as [e | c6] eqn:E6; [discriminate |]. cbn [and_then] in H.
    destruct (set_item "product_group" "scratch_path" _ c6)
      as [e | c7] eqn:E7; [discriminate |]. cbn [and_then] in H.
    destruct (set_item "product_group" "product_id" _ c7)
      as [e | c8] eqn:E8; [discriminate |]. cbn [and_then] in H.
    destruct (set_item "processing" "polarization" _ c8)
      as [e | c9] eqn:E9; [discriminate |].
    pose proof (set_item_groups _ _ _ _ _ E1) as D1.
    pose proof (set_item_groups _ _ _ _ _ E2) as D2.
    pose proof (set_item_groups _ _ _ _ _ E3) as D3.
    pose proof (set_item_groups _ _ _ _ _ E4) as D4.
    pose proof (set_item_groups _ _ _ _ _ E5) as D5.
    pose proof (set_item_groups _ _ _ _ _ E6) as D6.
    pose proof (set_item_groups _ _ _ _ _ E7) as D7.
    pose proof (set_item_groups _ _ _ _ _ E8) as D8.
    apply set_item_inr_dom in E1, E3, E4, E9.
    rewrite D8, D7, D6, D5, D4, D3, D2, D1 in E9.
    rewrite D3, D2, D1 in E4. rewrite D2, D1 in E3.
    repeat split; eauto.
  - intros ([s ->] & [o ->] & H1 & H2 & H3 & H4).
    destruct (edit_config_frame_aux data_dir s o dem_path name pol cfg
                H1 H2 H3 H4) as (cfg' & E). eauto.
Qed.

Lemma cfg_template_groups :
  "input_file_group" ∈ dom cfg_template /\
  "dynamic_ancillary_file_group" ∈ dom cfg_template /\
  "product_group" ∈ dom cfg_template /\
  "processing" ∈ dom cfg_template.
Proof. repeat split; apply elem_of_dom; vm_compute; eauto. Qed.

Lemma edit_config_frame_witness :
  exists cfg',
    edit_config "/g/data" (Some "/g/data/scenes/S1B_IW_SLC")
      (Some "/g/data/orbits/POEORB/S1B_OPER.EOF") "/g/data/dem/dem.tif"
      "S1B_IW_SLC" "HH" cfg_template = inr cfg' /\
    config_value cfg' "processing" "polarization" = Some (VStr "co-pol") /\
    config_value cfg' "product_group" "product_version"
      = Some (VOther "1.0").
Proof.
  destruct cfg_template_groups as (G1 & G2 & G3 & G4).
  destruct (edit_config_frame "/g/data" "/g/data/scenes/S1B_IW_SLC"
              "/g/data/orbits/POEORB/S1B_OPER.EOF" "/g/data/dem/dem.tif"
              "S1B_IW_SLC" "HH" cfg_template G1 G2 G3 G4)
    as (cfg' & E & _ & _ & _ & _ & _ & _ & _ & _ & Hpol & Hframe & _).
  exists cfg'. split; [exact E |]. split; [exact Hpol |].
  rewrite Hframe; [reflexivity |].
  unfold edited_keys. intros Hin.
  repeat (apply elem_of_cons in Hin; destruct Hin as [Hin | Hin];
          [discriminate |]).
  apply elem_of_nil in Hin. exact Hin.
Defined.

(** X18: the orbit file of the configuration is the last entry of the
    listing of the precise-orbit folder.  With an empty folder
    [prec_orb_path] is not bound: the cell stops with a NameError at its
    second statement, and the configuration keeps the SAFE path written by
    the first. *)
Theorem edit_config_orbit_file
    (data_dir scene dem_path name pol : string) (listing : list string)
    (cfg : Groups) :
  "input_file_group" ∈ dom cfg ->
  "dynamic_ancillary_file_group" ∈ dom cfg ->
  "product_group" ∈ dom cfg ->
  "processing" ∈ dom cfg ->
  match last listing with
  | Some p =>
      exists cfg',
        edit_config data_dir (Some scene) (prec_orb_path data_dir listing)
          dem_path name pol cfg = inr cfg' /\
        config_value cfg' "input_file_group" "orbit_file_path"
          = Some (VList
                    [os_path_join (precise_orb_download_folder data_dir) p])
  | None =>
      exists cfg1,
        edit_config data_dir (Some scene) (prec_orb_path data_dir listing)
          dem_path name pol cfg = inl (NameError "prec_orb_path", cfg1) /\
        config_value cfg1 "input_file_group" "safe_file_path"
          = Some (VList [os_path_join data_dir (scene +:+ ".zip")]) /\
        forall g k, (g, k) <> ("input_file_group", "safe_file_path") ->
                    config_value cfg1 g k = config_value cfg g k
  end.
Proof.
  intros H1 H2 H3 H4.
  unfold prec_orb_path. rewrite loop_variable_last.
  destruct (last listing) as [p |] eqn:El.
  - assert (Hl : last (List.map
                         (os_path_join (precise_orb_download_folder data_dir))
                         listing)
                 = Some (os_path_join (precise_orb_download_folder data_dir) p)).
    { change (List.map ?f listing) with (f <$> listing).
      rewrite fmap_last, El. reflexivity. }
    rewrite Hl.
    destruct (edit_config_frame_aux data_dir scene
                (os_path_join (precise_orb_download_folder data_dir) p)
                dem_path name pol cfg H1 H2 H3 H4) as (cfg' & E).
    exists cfg'. split; [exact E |].
    revert E. unfold edit_config. cbn [and_then read_variable].
    destruct (set_item "input_file_group" "safe_file_path" _ cfg)
      as [e | c1] eqn:E1; [discriminate |]. cbn [and_then read_variable].
    destruct (set_item "input_file_group" "orbit_file_path" _ c1)
      as [e | c2] eqn:E2; [discriminate |]. cbn [and_then].
    destruct (set_item "dynamic_ancillary_file_group" "dem_file" _ c2)
      as [e | c3] eqn:E3; [discriminate |]. cbn [and_then].
    destruct (set_item "product_group" "output_dir" _ c3)
      as [e | c4] eqn:E4; [discriminate |]. cbn [and_then].
    destruct (set_item "product_group" "save_mosaics" _ c4)
      as [e | c5] eqn:E5; [discriminate |]. cbn [and_then].
    destruct (set_item "product_group" "product_path" _ c5)
      as [e | c6] eqn:E6; [discriminate |]. cbn [and_then].
    destruct (set_item "product_group" "scratch_path" _ c6)
      as [e | c7] eqn:E7; [discriminate |]. cbn [and_then].
    destruct (set_item "product_group" "product_id" _ c7)
      as [e | c8] eqn:E8; [discriminate |]. cbn [and_then].
    destruct (set_item "processing" "polarization" _ c8)
      as [e | c9] eqn:E9; [discriminate |].
    intros [= <-].
    rewrite (config_value_set_item_ne _ _ _ _ _ _ _ E9) by discriminate.
    rewrite (config_value_set_item_ne _ _ _ _ _ _ _ E8) by discriminate.
    rewrite (config_value_set_item_ne _ _ _ _ _ _ _ E7) by discriminate.
    rewrite (config_value_set_item_ne _ _ _ _ _ _ _ E6) by discriminate.
    rewrite (config_value_set_item_ne _ _ _ _ _ _ _ E5) by discriminate.
    rewrite (config_value_set_item_ne _ _ _ _ _ _ _ E4) by discriminate.
    rewrite (config_value_set_item_ne _ _ _ _ _ _ _ E3) by discriminate.
    apply (config_value_set_item_eq _ _ _ _ _ E2).
  - assert (Hl : last (List.map
                         (os_path_join (precise_orb_download_folder data_dir))
                         listing) = None).
    { apply last_None in El. rewrite El. reflexivity. }
    rewrite Hl.
    destruct (set_item_present cfg "input_file_group" "safe_file_path"
                (VList [os_path_join data_dir (scene +:+ ".zip")]) H1)
      as (c1 & E1).
    exists c1. unfold edit_config. cbn [and_then read_variable].
    rewrite E1. cbn [and_then read_variable].
    split; [reflexivity |]. split.
    + apply (config_value_set_item_eq _ _ _ _ _ E1).
    + intros g k Hne.
      apply (config_value_set_item_ne _ _ _ _ _ _ _ E1). congruence.
Qed.

Lemma edit_config_orbit_file_witness :
  exists cfg1,
    edit_config "/g/data" (Some "/g/data/scenes/S1B_IW_SLC")
      (prec_orb_path "/g/data" []) "/g/data/dem/dem.tif" "S1B_IW_SLC" "HH"
      cfg_template = inl (NameError "prec_orb_path", cfg1) /\
    config_value cfg1 "input_file_group" "safe_file_path"
      = Some (VList ["/g/data/scenes/S1B_IW_SLC.zip"]).
Proof.
  destruct cfg_template_groups as (G1 & G2 & G3 & G4).
  destruct (edit_config_orbit_file "/g/data" "/g/data/scenes/S1B_IW_SLC"
              "/g/data/dem/dem.tif" "S1B_IW_SLC" "HH" [] cfg_template
              G1 G2 G3 G4) as (cfg1 & E & Hsafe & _).
  exists cfg1. split; [exact E | exact Hsafe].
Defined.
